(** * MLCodeLab, lab2: the MNIST tutorial and the CIFAR exercise notebooks

    A shallow embedding of the code cells of [lab2/mnist_tutorial.ipynb] and
    [lab2/cifar_exercise.ipynb]: the autograd cell, the data-loading cell,
    the linear and the perceptron [Model], the loaders, [train_epoch],
    [eval_epoch] and the training driver, with the parts of [torch] they
    call: the samplers, [view] on strided tensors, the SGD step.

    Python integers are [Z] or [nat]; the one Python float that decides
    control flow, [len(all_train)*.8], is an IEEE-754 binary64 value
    ([spec_float] at precision 53).  The model's forward pass and the
    gradient of the loss are functions of the whole mini-batch, whatever
    the library computes them with; the numbers they return, and the sums
    the cells form of them, are rationals [Q]. *)

From Stdlib Require Import String.
From Stdlib Require Import ZArith List Bool Lia Arith PeanoNat.
From Stdlib Require Import QArith Qfield Permutation.
From Stdlib Require Import Floats.SpecFloat.
Import ListNotations.

(** ** Python exceptions *)

Module Py.

(** The exceptions that can surface in the notebooks: the interpreter's own
    and whatever [torch] or [torchvision] raises.  The notebooks define no
    exception class. *)
Inductive exn : Type :=
| ZeroDivisionError
| IndexError
| ValueError
| OverflowError
| LibraryError (what : string).

(** A call either raises or returns. *)
Definition result (A : Type) : Type := (exn + A)%type.

Definition raise {A : Type} (e : exn) : result A := inl e.
Definition ok {A : Type} (x : A) : result A := inr x.

(** [[f(x) for x in xs]] where [f] may raise: the first exception wins. *)
Fixpoint traverse {A B : Type} (f : A -> result B) (xs : list A) : result (list B) :=
  match xs with
  | [] => inr []
  | x :: xs' =>
      match f x with
      | inl e => inl e
      | inr y =>
          match traverse f xs' with
          | inl e => inl e
          | inr ys => inr (y :: ys)
          end
      end
  end.

(** [range(lo, hi)] *)
Definition range (lo hi : Z) : list Z :=
  map (fun k => (lo + Z.of_nat k)%Z) (seq 0 (Z.to_nat (hi - lo))).

(** [xs[i]] on a sequence: negative indices count from the end. *)
Definition getitem {A : Type} (xs : list A) (i : Z) : result A :=
  let n := Z.of_nat (length xs) in
  let j := if (i <? 0)%Z then (i + n)%Z else i in
  if ((0 <=? j) && (j <? n))%Z
  then match nth_error xs (Z.to_nat j) with
       | Some x => inr x
       | None => inl IndexError
       end
  else inl IndexError.

End Py.

(** ** Binary64 arithmetic of the split index *)

Module PyFloat.
Import Py.
Local Open Scope Z_scope.

Definition prec : Z := 53.
Definition emax : Z := 1024.

(** [float(n)] for a Python int: the nearest binary64 value. *)
Definition float_of_int (n : Z) : spec_float :=
  binary_normalize prec emax n 0 false.

(** The literal [.8]: 0x1.999999999999ap-1. *)
Definition point8 : spec_float :=
  S754_finite false 7205759403792794 (-53).

(** [int * float]: the int operand is converted, then the doubles are
    multiplied with round-to-nearest-even. *)
Definition int_mul_float (n : Z) (x : spec_float) : spec_float :=
  SFmul prec emax (float_of_int n) x.

(** [int(x)]: truncation toward zero; Python raises [OverflowError] on an
    infinity and [ValueError] on a NaN. *)
Definition int_of_float (x : spec_float) : result Z :=
  match x with
  | S754_zero _ => inr 0
  | S754_finite s m e =>
      let a := match e with
               | Z0 => Zpos m
               | Zpos p => Zpos m * 2 ^ Zpos p
               | Zneg p => Zpos m / 2 ^ Zpos p
               end in
      inr (if s then - a else a)
  | S754_infinity _ => inl OverflowError
  | S754_nan => inl ValueError
  end.


(** *** The rounding of [int * float], bit by bit *)


















End PyFloat.

(** ** The data-loading cell *)

Module Split.
Import PyFloat.
Local Open Scope Z_scope.

(** [num_train = int(len(all_train)*.8)] *)
Definition num_train (len_all_train : Z) : Py.result Z :=
  int_of_float (int_mul_float len_all_train point8).






Lemma num_train_first_failure :
  num_train (3 * 2 ^ 49) = inr (4 * (3 * 2 ^ 49) / 5 + 1).
Proof. vm_compute. reflexivity. Qed.

End Split.

(** ** The parts of [torch] the notebooks call *)

Module Torch.
Import Py.
Local Open Scope nat_scope.

(** [torch.utils.data.BatchSampler.__iter__] with [drop_last=False], the
    default the notebooks' [DataLoader]s keep: indices are appended to
    [batch]; a batch is yielded when it holds [batch_size] of them, and a
    non-empty rest is yielded at the end. *)
Fixpoint batch_sampler (batch_size : nat) (batch : list nat) (sampler : list nat)
  : list (list nat) :=
  match sampler with
  | [] => match batch with [] => [] | _ :: _ => [batch] end
  | idx :: rest =>
      let batch' := batch ++ [idx] in
      if length batch' =? batch_size
      then batch' :: batch_sampler batch_size [] rest
      else batch_sampler batch_size batch' rest
  end.

(** [l[k] = v] *)
Fixpoint update {A : Type} (k : nat) (v : A) (l : list A) : list A :=
  match l, k with
  | [], _ => []
  | _ :: tl, 0 => v :: tl
  | x :: tl, S k' => x :: update k' v tl
  end.

(** [sav = r[i]; r[i] = r[j]; r[j] = sav] *)
Definition exchange (r : list nat) (i j : nat) : list nat :=
  match nth_error r i, nth_error r j with
  | Some a, Some b => update j a (update i b r)
  | _, _ => r
  end.

(** The loop of ATen's [randperm_cpu]: for [i = 0 .. n - 2] the entries
    at [i] and [i + z] are exchanged, [z] being the generator's next number
    modulo [n - i].  [gen i] is the number the generator returns at the
    loop's round [i]. *)
Fixpoint shuffle (gen : nat -> nat) (n i rounds : nat) (r : list nat) : list nat :=
  match rounds with
  | 0 => r
  | S rounds' => shuffle gen n (S i) rounds' (exchange r i (i + gen i mod (n - i)))
  end.

(** [torch.randperm(n).tolist()] *)
Definition randperm (gen : nat -> nat) (n : nat) : list nat :=
  shuffle gen n 0 (n - 1) (seq 0 n).

(** [torch.utils.data.RandomSampler.__iter__] without replacement, what
    [DataLoader(..., shuffle=True)] iterates over: one [randperm] of the
    dataset's indices. *)
Definition random_sampler (gen : nat -> nat) (len_data_source : nat) : list nat :=
  randperm gen len_data_source.

(** [row.max(0)[1]]: the index of the largest entry, the first one on a tie. *)
Fixpoint argmax_from (best_i : nat) (best : Q) (i : nat) (row : list Q) : nat :=
  match row with
  | [] => best_i
  | x :: row' =>
      if Qle_bool x best
      then argmax_from best_i best (S i) row'
      else argmax_from i x (S i) row'
  end.

Definition argmax (row : list Q) : nat :=
  match row with
  | [] => 0
  | x :: row' => argmax_from 0 x 1 row'
  end.

(** Following the claim's words, "the index of the maximum output
    logit": [k] indexes an entry of [row], no entry is larger, and every
    entry before it is smaller (on a tie the library returns the first
    index). *)
Definition max_at (row : list Q) (k : nat) : bool :=
  match nth_error row k with
  | None => false
  | Some m => forallb (fun x => Qle_bool x m) row
              && forallb (fun x => negb (Qle_bool m x)) (firstn k row)
  end.

(** [pred = output.max(1, keepdim=True)[1]] followed by
    [pred.eq(target.view_as(pred)).sum().item()]. *)
Definition count_correct (output : list (list Q)) (target : list nat) : nat :=
  length (filter (fun rt => argmax (fst rt) =? snd rt) (combine output target)).

Fixpoint zip_with {A B C : Type} (f : A -> B -> C) (xs : list A) (ys : list B) : list C :=
  match xs, ys with
  | x :: xs', y :: ys' => f x y :: zip_with f xs' ys'
  | _, _ => []
  end.

Definition Qsum (xs : list Q) : Q := fold_right Qplus 0%Q xs.

(** The mean reduction: [F.cross_entropy]'s default. *)
Definition Qmean (xs : list Q) : Q := (Qsum xs / inject_Z (Z.of_nat (length xs)))%Q.

(** One [optim.SGD.step()] on the flattened parameters (dampening 0, no
    Nesterov, no weight decay): with momentum the buffer starts as the
    first gradient and then becomes [momentum * buf + grad]. *)
Definition sgd_step (lr momentum : Q) (p g : list Q) (buf : option (list Q))
  : list Q * option (list Q) :=
  if Qeq_bool momentum 0
  then (zip_with (fun p d => (p - lr * d)%Q) p g, buf)
  else
    let buf' := match buf with
                | None => g
                | Some b => zip_with (fun b g => (momentum * b + g)%Q) b g
                end in
    (zip_with (fun p d => (p - lr * d)%Q) p buf', Some buf').

(** *** Tensor sizes *)

Definition size : Type := list nat.

Definition numel (s : size) : nat := fold_right Nat.mul 1 s.

(** One entry of the shape passed to [view]: a length or [-1]. *)
Inductive dim : Type :=
| D (n : nat)
| Infer.

Definition given (shape : list dim) : nat :=
  fold_right (fun d acc => match d with D n => n * acc | Infer => acc end) 1 shape.

Definition count_infer (shape : list dim) : nat :=
  length (filter (fun d => match d with Infer => true | D _ => false end) shape).

(** ATen's [infer_size]: the product of the given lengths must equal the
    number of elements, or divide it when one length is left to infer; a
    [-1] next to a zero length is refused as ambiguous. *)
Definition infer_size (shape : list dim) (n : nat) : result size :=
  let newsize := given shape in
  match count_infer shape with
  | 0 =>
      if n =? newsize
      then ok (map (fun d => match d with D k => k | Infer => 0 end) shape)
      else raise (LibraryError "shape is invalid for input size")
  | 1 =>
      if (n =? newsize) || ((0 <? newsize) && (n mod newsize =? 0))
      then
        if newsize =? 0
        then raise (LibraryError "cannot reshape tensor of 0 elements: -1 is ambiguous")
        else ok (map (fun d => match d with D k => k | Infer => n / newsize end) shape)
      else raise (LibraryError "shape is invalid for input size")
  | _ => raise (LibraryError "only one dimension can be inferred")
  end.

(** The geometry of a strided tensor: for each dimension its length and
    its stride, the distance in elements between neighbours along it. *)
Definition geometry : Type := list (nat * nat).

Definition shape (x : geometry) : size := map fst x.

(** The strides of a newly allocated tensor: row-major, a zero length
    counting as one. *)
Fixpoint contiguous_strides (s : size) : list nat :=
  match s with
  | [] => []
  | _ :: rest => fold_right (fun d acc => Nat.max d 1 * acc) 1 rest :: contiguous_strides rest
  end.

Definition fresh (s : size) : geometry := combine s (contiguous_strides s).

(** c10's [_compute_contiguous], from the last dimension to the first:
    dimensions of length one are skipped, the others must have the
    row-major stride. *)
Fixpoint contiguous_from (z : nat) (dims_rev : list (nat * nat)) : bool :=
  match dims_rev with
  | [] => true
  | (size_d, stride_d) :: rest =>
      if size_d =? 1 then contiguous_from z rest
      else if stride_d =? z then contiguous_from (z * size_d) rest
      else false
  end.

(** [x.is_contiguous()] *)
Definition is_contiguous (x : geometry) : bool :=
  (numel (shape x) =? 0) || contiguous_from 1 (rev x).

(** The inner loop of ATen's [computeStride]: the dimensions of the view,
    from the last one, take their strides from the current chunk while the
    view holds fewer elements than the chunk, or the dimension has length
    one. *)
Fixpoint fill_chunk (tensor_numel chunk_base_stride view_numel : nat)
  (view_rev : list nat) (newstride : list nat) : nat * list nat * list nat :=
  match view_rev with
  | [] => (view_numel, [], newstride)
  | d :: rest =>
      if (view_numel <? tensor_numel) || (d =? 1)
      then fill_chunk tensor_numel chunk_base_stride (view_numel * d) rest
                      (view_numel * chunk_base_stride :: newstride)
      else (view_numel, view_rev, newstride)
  end.

(** The outer loop of [computeStride], over the tensor's dimensions from
    the last one: a chunk ends at the first dimension, or where the next
    dimension (of length other than one) does not have the stride that
    continues the chunk; the view must then have filled exactly the chunk. *)
Fixpoint chunks (dims_rev : list (nat * nat))
  (chunk_base_stride tensor_numel view_numel : nat)
  (view_rev : list nat) (newstride : list nat) : option (list nat) :=
  match dims_rev with
  | [] => match view_rev with [] => Some newstride | _ :: _ => None end
  | (size_d, _) :: before =>
      let tensor_numel := tensor_numel * size_d in
      let chunk_ends :=
        match before with
        | [] => true
        | (size_b, stride_b) :: _ =>
            negb (size_b =? 1) && negb (stride_b =? tensor_numel * chunk_base_stride)
        end in
      if chunk_ends
      then
        let '(view_numel', view_rev', newstride') :=
          fill_chunk tensor_numel chunk_base_stride view_numel view_rev newstride in
        if view_numel' =? tensor_numel
        then match before with
             | [] => chunks before chunk_base_stride tensor_numel view_numel'
                            view_rev' newstride'
             | (_, stride_b) :: _ => chunks before stride_b 1 1 view_rev' newstride'
             end
        else None
      else chunks before chunk_base_stride tensor_numel view_numel view_rev newstride
  end.

(** ATen's [computeStride]: the strides with which [newshape] addresses the
    same memory, if there are any. *)
Definition compute_stride (x : geometry) (newshape : size) : option (list nat) :=
  match rev x with
  | [] => Some (map (fun _ => 1) newshape)
  | (_, last_stride) :: _ =>
      if numel (shape x) =? 0
      then if list_eq_dec Nat.eq_dec (shape x) newshape
           then Some (map snd x)
           else Some (contiguous_strides newshape)
      else chunks (rev x) last_stride 1 1 (rev newshape) []
  end.

(** [x.view(shape)] on the geometry: no copy is made, so the new lengths
    must fit the tensor's strides. *)
Definition view_geometry (x : geometry) (newshape : list dim) : result geometry :=
  match infer_size newshape (numel (shape x)) with
  | inl e => inl e
  | inr inferred =>
      match compute_stride x inferred with
      | Some newstride => ok (combine inferred newstride)
      | None =>
          raise (LibraryError
                   "view size is not compatible with input tensor's size and stride")
      end
  end.

(** *** Tensors *)

Inductive scalar_type : Type := float32 | float64 | float16 | int64 | uint8.

Inductive device_type : Type := cpu | cuda | meta.

(** What the calls below look at in a strided tensor: its geometry, the
    type of its elements and the device that holds them. *)
Record tensor : Type := {
  strided : geometry;
  dtype : scalar_type;
  device : device_type
}.

(** [x.size()] *)
Definition sizes (x : tensor) : size := shape (strided x).

(** A new tensor of the given lengths, as [ToTensor] and the loaders make
    them: contiguous, of [float32] elements, on the CPU. *)
Definition delivered (s : size) : tensor :=
  {| strided := fresh s; dtype := float32; device := cpu |}.

(** [x.view(shape)] *)
Definition view (x : tensor) (newshape : list dim) : result tensor :=
  match view_geometry (strided x) newshape with
  | inl e => inl e
  | inr g => ok {| strided := g; dtype := dtype x; device := device x |}
  end.

(** The matrix product of [nn.Linear(in_features, out_features)] on rows
    of the given lengths: the lengths of the result. *)
Definition linear_rows (in_features out_features : nat) (x : size) : result size :=
  match rev x with
  | [] => raise (LibraryError "linear: input has no dimension")
  | last :: front =>
      if last =? in_features
      then ok (rev front ++ [out_features])
      else raise (LibraryError "mat1 and mat2 shapes cannot be multiplied")
  end.

(** [nn.Linear(in_features, out_features)] with its parameters as
    constructed, [float32] on the CPU, applied to a tensor: the input must
    be on the parameters' device and of their type, whatever its strides;
    the lengths of the result. *)
Definition linear (in_features out_features : nat) (x : tensor) : result size :=
  match device x with
  | cpu =>
      match dtype x with
      | float32 => linear_rows in_features out_features (sizes x)
      | _ => raise (LibraryError "mat1 and mat2 must have the same dtype")
      end
  | _ => raise (LibraryError "Expected all tensors to be on the same device")
  end.

(** [F.relu] on the result of a layer keeps the lengths. *)
Definition relu (x : size) : result size := ok x.

(** *** Batches *)

Lemma concat_batch_sampler (bs : nat) (sampler batch : list nat) :
  concat (batch_sampler bs batch sampler) = batch ++ sampler.
Proof.
  revert batch. induction sampler as [|idx rest IH]; intro batch; cbn [batch_sampler].
  - destruct batch; cbn; rewrite ?app_nil_r; reflexivity.
  - destruct (length (batch ++ [idx]) =? bs); cbn [concat]; rewrite IH.
    + rewrite <- app_assoc. reflexivity.
    + rewrite <- app_assoc. reflexivity.
Qed.

(** Every batch but the last is full, the last holds what is left, and
    none is empty. *)
Lemma batch_sampler_sizes (bs : nat) (sampler batch : list nat) :
  1 <= bs -> length batch < bs ->
  exists full rest,
    batch_sampler bs batch sampler = full ++ rest /\
    Forall (fun b => length b = bs) full /\
    length full = (length batch + length sampler) / bs /\
    (((length batch + length sampler) mod bs = 0 /\ rest = []) \/
     (exists b, rest = [b] /\
                length b = (length batch + length sampler) mod bs /\
                0 < length b < bs)).
Proof.
  intros Hbs. revert batch.
  induction sampler as [|idx rest IH]; intros batch Hlen; cbn [batch_sampler].
  - cbn [length]. rewrite Nat.add_0_r.
    rewrite Nat.div_small, Nat.mod_small by lia.
    destruct batch as [|b0 batch'].
    + exists [], []. repeat split; auto.
    + exists [], [b0 :: batch']. split; [reflexivity|]. split; [constructor|].
      split; [reflexivity|]. right. eexists; split; [reflexivity|].
      cbn [length] in *. lia.
  - assert (Hl : length (batch ++ [idx]) = S (length batch))
      by (rewrite length_app; cbn; lia).
    cbn [length]. destruct (Nat.eqb_spec (length (batch ++ [idx])) bs) as [E | NE].
    + destruct (IH [] ltac:(cbn; lia)) as [full [last [E1 [F1 [L1 C1]]]]].
      cbn [length] in L1, C1. cbn [Nat.add] in L1, C1.
      assert (Hsum : length batch + S (length rest) = length rest + 1 * bs) by lia.
      exists ((batch ++ [idx]) :: full), last. rewrite E1. split; [reflexivity|].
      split; [constructor; assumption|].
      rewrite Hsum, Nat.div_add, Nat.Div0.mod_add by lia.
      split; [cbn [length]; lia | exact C1].
    + destruct (IH (batch ++ [idx]) ltac:(lia)) as [full [last [E1 [F1 [L1 C1]]]]].
      rewrite Hl in L1, C1.
      replace (length batch + S (length rest)) with (S (length batch) + length rest) by lia.
      exists full, last. auto.
Qed.

Lemma batch_sampler_nonempty (bs : nat) (sampler batch : list nat) :
  Forall (fun b => b <> []) (batch_sampler bs batch sampler).
Proof.
  revert batch. induction sampler as [|idx rest IH]; intro batch; cbn [batch_sampler].
  - destruct batch; repeat constructor. discriminate.
  - destruct (length (batch ++ [idx]) =? bs); [constructor|]; auto.
    destruct batch; discriminate.
Qed.

Lemma batch_sampler_count (bs : nat) (sampler batch : list nat) :
  length (batch_sampler bs batch sampler) <= length sampler + Nat.min 1 (length batch).
Proof.
  revert batch. induction sampler as [|idx rest IH]; intro batch; cbn [batch_sampler].
  - destruct batch; cbn; lia.
  - destruct (length (batch ++ [idx]) =? bs); cbn [length].
    + specialize (IH []). cbn [length] in IH. lia.
    + specialize (IH (batch ++ [idx])). lia.
Qed.

Lemma batch_sampler_nil_inv (bs : nat) (sampler batch : list nat) :
  batch_sampler bs batch sampler = [] -> sampler = [] /\ batch = [].
Proof.
  intro H. pose proof (concat_batch_sampler bs sampler batch) as Hc.
  rewrite H in Hc. cbn in Hc. symmetry in Hc. apply app_eq_nil in Hc.
  destruct Hc as [Hb Hs]. split; assumption.
Qed.

(** *** The sampler *)

Lemma update_permutation {A : Type} (l : list A) (k : nat) (a v : A) :
  nth_error l k = Some a -> Permutation (v :: l) (a :: update k v l).
Proof.
  revert k. induction l as [|x l IH]; intros [|k] H; cbn in H; try discriminate.
  - inversion H; subst. cbn [update]. apply perm_swap.
  - cbn [update]. apply perm_trans with (x :: v :: l); [apply perm_swap|].
    apply perm_trans with (x :: a :: update k v l); [|apply perm_swap].
    apply perm_skip, IH, H.
Qed.

Lemma nth_error_update {A : Type} (l : list A) (k j : nat) (v : A) :
  k < length l ->
  nth_error (update k v l) j = if j =? k then Some v else nth_error l j.
Proof.
  revert k j. induction l as [|x l IH]; intros k j Hk; cbn [length] in Hk; [lia|].
  destruct k as [|k], j as [|j]; cbn [update nth_error Nat.eqb]; try reflexivity.
  apply IH. lia.
Qed.

Lemma exchange_permutation (r : list nat) (i j : nat) : Permutation (exchange r i j) r.
Proof.
  unfold exchange.
  destruct (nth_error r i) as [a|] eqn:Ei; [|reflexivity].
  destruct (nth_error r j) as [b|] eqn:Ej; [|reflexivity].
  assert (Hi : i < length r) by (apply nth_error_Some; congruence).
  pose proof (update_permutation r i a b Ei) as H1.
  assert (Ej' : nth_error (update i b r) j = Some b).
  { rewrite nth_error_update by exact Hi.
    destruct (Nat.eqb_spec j i); [reflexivity | exact Ej]. }
  pose proof (update_permutation _ j b a Ej') as H2.
  apply (Permutation_cons_inv (a := b)).
  apply Permutation_sym.
  apply perm_trans with (a :: update i b r); assumption.
Qed.

Lemma shuffle_permutation (gen : nat -> nat) (n rounds i : nat) (r : list nat) :
  Permutation (shuffle gen n i rounds r) r.
Proof.
  revert i r. induction rounds as [|rounds IH]; intros i r; cbn [shuffle].
  - reflexivity.
  - apply perm_trans with (exchange r i (i + gen i mod (n - i))).
    + apply IH.
    + apply exchange_permutation.
Qed.

(** Whatever numbers the generator returns, the sampler visits every
    index of the dataset once. *)
Lemma random_sampler_permutation (gen : nat -> nat) (n : nat) :
  Permutation (random_sampler gen n) (seq 0 n).
Proof. apply shuffle_permutation. Qed.

(** *** Views *)

Ltac decide_tests :=
  repeat match goal with
         | |- context [?a =? ?b] =>
             destruct (Nat.eqb_spec a b); try (exfalso; nia); cbn [negb andb orb]
         | |- context [?a <? ?b] =>
             destruct (Nat.ltb_spec a b); try (exfalso; nia); cbn [negb andb orb]
         end.

Lemma contiguous_four (b c h w s0 s1 s2 s3 : nat) :
  1 <= b -> 1 <= c -> 1 <= h -> 1 <= w ->
  is_contiguous [(b, s0); (c, s1); (h, s2); (w, s3)] = true ->
  (w = 1 \/ s3 = 1) /\ (h = 1 \/ s2 = w) /\ (c = 1 \/ s1 = h * w) /\
  (b = 1 \/ s0 = c * h * w).
Proof.
  intros Hb Hc Hh Hw. unfold is_contiguous.
  cbn [shape map fst numel fold_right rev app contiguous_from].
  destruct (Nat.eqb_spec (b * (c * (h * (w * 1)))) 0) as [E|_]; [exfalso; nia|].
  cbn [orb].
  destruct (Nat.eqb_spec w 1) as [-> | Hw1];
    [| destruct (Nat.eqb_spec s3 1) as [-> | ]; [|discriminate] ];
  (destruct (Nat.eqb_spec h 1) as [-> | Hh1];
    [| match goal with |- context [s2 =? ?z] =>
         destruct (Nat.eqb_spec s2 z) as [-> | ]; [|discriminate] end ]);
  (destruct (Nat.eqb_spec c 1) as [-> | Hc1];
    [| match goal with |- context [s1 =? ?z] =>
         destruct (Nat.eqb_spec s1 z) as [-> | ]; [|discriminate] end ]);
  (destruct (Nat.eqb_spec b 1) as [-> | Hb1];
    [| match goal with |- context [s0 =? ?z] =>
         destruct (Nat.eqb_spec s0 z) as [-> | ]; [|discriminate] end ]);
  intros _; repeat split; first [left; reflexivity | right; lia | idtac].
Qed.

Lemma infer_flatten (b n : nat) :
  1 <= b -> infer_size [D b; Infer] (b * n) = ok [b; n].
Proof.
  intro Hb. unfold infer_size. cbn [given fold_right count_infer filter length map].
  rewrite Nat.mul_1_r.
  assert (Hmod : (b * n) mod b = 0) by (rewrite Nat.mul_comm; apply Nat.Div0.mod_mul).
  assert (Hdiv : b * n / b = n) by (rewrite Nat.mul_comm; apply Nat.div_mul; lia).
  rewrite Hmod, Hdiv.
  destruct (Nat.ltb_spec 0 b) as [_|]; [|lia].
  cbn [Nat.eqb andb]. rewrite orb_true_r.
  destruct (Nat.eqb_spec b 0) as [|_]; [lia|]. reflexivity.
Qed.

Lemma compute_stride_flatten (b c h w s0 s1 s2 s3 : nat) :
  1 <= b -> 1 < c * h * w ->
  is_contiguous [(b, s0); (c, s1); (h, s2); (w, s3)] = true ->
  compute_stride [(b, s0); (c, s1); (h, s2); (w, s3)] [b; c * h * w]
  = Some [c * h * w; 1].
Proof.
  intros Hb Hn Hcontig.
  assert (Hc : 1 <= c) by nia. assert (Hh : 1 <= h) by nia. assert (Hw : 1 <= w) by nia.
  destruct (contiguous_four _ _ _ _ _ _ _ _ Hb Hc Hh Hw Hcontig) as (F3 & F2 & F1 & F0).
  unfold compute_stride. cbn [rev app shape map fst numel fold_right].
  destruct (Nat.eqb_spec (b * (c * (h * (w * 1)))) 0) as [E|_]; [exfalso; nia|].
  set (n := c * h * w) in *.
  cbn [chunks fill_chunk].
  destruct F3 as [-> | ->], F2 as [-> | ->], F1 as [-> | ->], F0 as [-> | ->];
    rewrite ?Nat.mul_1_l, ?Nat.mul_1_r in *.
  all: decide_tests.
  all: cbn [chunks fill_chunk]; rewrite ?Nat.mul_1_l, ?Nat.mul_1_r in *.
  all: decide_tests.
  all: try reflexivity.
  all: cbn [chunks fill_chunk]; rewrite ?Nat.mul_1_l, ?Nat.mul_1_r in *.
  all: decide_tests.
  all: try reflexivity.
  all: cbn [chunks fill_chunk]; rewrite ?Nat.mul_1_l, ?Nat.mul_1_r in *.
  all: decide_tests.
  all: try reflexivity.
  all: repeat f_equal; nia.
Qed.

Lemma fill_chunk_length (tn cbs vn : nat) (vr ns : list nat) :
  let '(_, vr', ns') := fill_chunk tn cbs vn vr ns in
  length ns' + length vr' = length ns + length vr.
Proof.
  revert vn ns. induction vr as [|d vr IH]; intros vn ns; cbn [fill_chunk].
  - reflexivity.
  - destruct ((vn <? tn) || (d =? 1)); [|reflexivity].
    specialize (IH (vn * d) (vn * cbs :: ns)).
    destruct (fill_chunk tn cbs (vn * d) vr (vn * cbs :: ns)) as [[vn' vr'] ns'].
    cbn [length] in *. lia.
Qed.

Lemma chunks_length (dims : list (nat * nat)) (cbs tn vn : nat) (vr ns st : list nat) :
  chunks dims cbs tn vn vr ns = Some st -> length st = length ns + length vr.
Proof.
  revert cbs tn vn vr ns. induction dims as [|[size_d stride_d] before IH];
    intros cbs tn vn vr ns H; cbn [chunks] in H.
  - destruct vr; [|discriminate]. inversion H; subst. cbn [length]. lia.
  - cbv zeta in H.
    destruct (match before with
              | [] => true
              | (size_b, stride_b) :: _ =>
                  negb (size_b =? 1) && negb (stride_b =? tn * size_d * cbs)
              end).
    + pose proof (fill_chunk_length (tn * size_d) cbs vn vr ns) as HL.
      destruct (fill_chunk (tn * size_d) cbs vn vr ns) as [[vn' vr'] ns'].
      destruct (vn' =? tn * size_d); [|discriminate].
      destruct before as [|[size_b stride_b] before']; apply IH in H; lia.
    + apply IH in H. exact H.
Qed.

Lemma contiguous_strides_length (s : size) : length (contiguous_strides s) = length s.
Proof. induction s as [|d s IH]; cbn [contiguous_strides length]; congruence. Qed.

Lemma compute_stride_length (x : geometry) (newshape : size) (st : list nat) :
  compute_stride x newshape = Some st -> length st = length newshape.
Proof.
  unfold compute_stride. destruct (rev x) as [|[size_d last_stride] before] eqn:Ex.
  - intro H. inversion H. apply length_map.
  - destruct (numel (shape x) =? 0).
    + destruct (list_eq_dec Nat.eq_dec (shape x) newshape) as [E|_];
        intro H; inversion H.
      * rewrite <- E. unfold shape. rewrite !length_map. reflexivity.
      * apply contiguous_strides_length.
    + intro H. apply chunks_length in H. rewrite length_rev in H. exact H.
Qed.

(** The result of [view] has the inferred lengths. *)
Lemma view_shape (x y : geometry) (newshape : list dim) :
  view_geometry x newshape = ok y -> infer_size newshape (numel (shape x)) = ok (shape y).
Proof.
  unfold view_geometry. destruct (infer_size newshape (numel (shape x))) as [e | inferred];
    [discriminate|].
  destruct (compute_stride x inferred) as [st|] eqn:E; [|discriminate].
  intro H. inversion H; subst. clear H. apply compute_stride_length in E.
  unfold shape, ok. f_equal. symmetry.
  revert st E. induction inferred as [|d l IH]; intros [|a st] E; cbn in E;
    try discriminate; [reflexivity|].
  cbn [combine map fst]. f_equal. apply IH. lia.
Qed.

(** *** The predicted class *)

Definition first_max (row : list Q) (k : nat) (m : Q) : Prop :=
  nth_error row k = Some m /\
  Forall (fun x => Qle_bool x m = true) row /\
  Forall (fun x => Qle_bool m x = false) (firstn k row).

Lemma max_at_first_max (row : list Q) (k : nat) :
  max_at row k = true <-> exists m, first_max row k m.
Proof.
  unfold max_at, first_max. destruct (nth_error row k) as [m|]; split.
  - intro H. apply andb_prop in H as [H1 H2]. exists m. split; [reflexivity|].
    split; apply Forall_forall; intros x Hx.
    + exact (proj1 (forallb_forall _ _) H1 x Hx).
    + apply negb_true_iff. exact (proj1 (forallb_forall _ _) H2 x Hx).
  - intros (m' & E & H1 & H2). inversion E; subst m'.
    apply andb_true_intro. split; apply forallb_forall; intros x Hx.
    + exact (proj1 (Forall_forall _ _) H1 x Hx).
    + apply negb_true_iff. exact (proj1 (Forall_forall _ _) H2 x Hx).
  - discriminate.
  - intros (m & E & _). discriminate.
Qed.

Lemma first_max_unique (row : list Q) (k k' : nat) (m m' : Q) :
  first_max row k m -> first_max row k' m' -> k = k'.
Proof.
  assert (Hlt : forall a b ma mb, first_max row a ma -> first_max row b mb -> a < b -> False).
  { intros a b ma mb (Ea & Ha & _) (Eb & _ & Hb) Hab.
    assert (Hin : In ma (firstn b row)).
    { apply (nth_error_In _ a). rewrite nth_error_firstn.
      destruct (Nat.ltb_spec a b); [exact Ea | lia]. }
    pose proof (proj1 (Forall_forall _ _) Hb ma Hin) as H1.
    pose proof (proj1 (Forall_forall _ _) Ha mb (nth_error_In _ _ Eb)) as H2.
    cbv beta in H1, H2. congruence. }
  intros H1 H2. destruct (Nat.lt_total k k') as [L | [E | L]]; [|exact E|].
  - exfalso. exact (Hlt _ _ _ _ H1 H2 L).
  - exfalso. exact (Hlt _ _ _ _ H2 H1 L).
Qed.

Lemma Qle_bool_false_trans (x y z : Q) :
  Qle_bool x y = true -> Qle_bool z y = false ->
  Qle_bool x z = true /\ Qle_bool z x = false.
Proof.
  intros H1 H2. apply Qle_bool_iff in H1.
  assert (H2' : ~ (z <= y)%Q) by (intro H; apply Qle_bool_iff in H; congruence).
  apply Qnot_le_lt in H2'. split.
  - apply Qle_bool_iff. apply Qlt_le_weak. eapply Qle_lt_trans; eassumption.
  - destruct (Qle_bool z x) eqn:E; [|reflexivity].
    apply Qle_bool_iff in E. exfalso.
    apply (Qlt_irrefl y). eapply Qlt_le_trans; [exact H2'|].
    eapply Qle_trans; eassumption.
Qed.

Lemma argmax_from_first_max (row pre : list Q) (best_i : nat) (best : Q) :
  first_max pre best_i best ->
  exists m, first_max (pre ++ row) (argmax_from best_i best (length pre) row) m.
Proof.
  revert pre best_i best. induction row as [|x row IH]; intros pre best_i best H.
  - rewrite app_nil_r. exists best. exact H.
  - destruct H as (E & Hall & Hbefore).
    assert (Hi : best_i < length pre) by (apply nth_error_Some; congruence).
    cbn [argmax_from].
    replace (pre ++ x :: row) with ((pre ++ [x]) ++ row)
      by (rewrite <- app_assoc; reflexivity).
    replace (S (length pre)) with (length (pre ++ [x]))
      by (rewrite length_app; cbn; lia).
    destruct (Qle_bool x best) eqn:Ex; apply IH; unfold first_max.
    + split; [rewrite nth_error_app1 by exact Hi; exact E|].
      split; [apply Forall_app; split; [exact Hall | repeat constructor; exact Ex]|].
      rewrite firstn_app. replace (best_i - length pre) with 0 by lia.
      cbn [firstn]. rewrite app_nil_r. exact Hbefore.
    + split.
      { rewrite nth_error_app2 by lia. rewrite Nat.sub_diag. reflexivity. }
      split.
      * apply Forall_app. split.
        -- eapply Forall_impl; [|exact Hall]. cbv beta. intros y Hy.
           exact (proj1 (Qle_bool_false_trans _ _ _ Hy Ex)).
        -- repeat constructor. apply Qle_bool_iff, Qle_refl.
      * rewrite firstn_app, Nat.sub_diag, firstn_all. cbn [firstn]. rewrite app_nil_r.
        eapply Forall_impl; [|exact Hall]. cbv beta. intros y Hy.
        exact (proj2 (Qle_bool_false_trans _ _ _ Hy Ex)).
Qed.

(** [argmax] computes what the words say: on a row with at least one
    entry, its result is [k] exactly when [k] is the index of the maximum,
    the first one on a tie. *)
Lemma argmax_max_at (row : list Q) (k : nat) :
  row <> [] -> (argmax row =? k) = max_at row k.
Proof.
  intro Hne. destruct row as [|x row]; [contradiction|].
  destruct (argmax_from_first_max row [x] 0 x) as [m Hm].
  { split; [reflexivity|]. split; repeat constructor. apply Qle_bool_iff, Qle_refl. }
  cbn [app length] in Hm. change (argmax_from 0 x 1 row) with (argmax (x :: row)) in Hm.
  destruct (max_at (x :: row) k) eqn:E.
  - apply max_at_first_max in E as [m' Hm'].
    apply Nat.eqb_eq. exact (first_max_unique _ _ _ _ _ Hm Hm').
  - apply Nat.eqb_neq. intro Hk. subst k.
    assert (Ht : max_at (x :: row) (argmax (x :: row)) = true)
      by (apply max_at_first_max; exists m; exact Hm).
    congruence.
Qed.

(** On rows that each have an entry at their target, the count the loops
    add is the number of rows whose maximum is at the target. *)
Lemma count_correct_max_at (output : list (list Q)) (target : list nat) :
  forallb (fun rt => snd rt <? length (fst rt)) (combine output target) = true ->
  count_correct output target
  = length (filter (fun rt => max_at (fst rt) (snd rt)) (combine output target)).
Proof.
  unfold count_correct. induction (combine output target) as [|[row t] l IH];
    [reflexivity|].
  cbn [forallb filter fst snd]. intro H. apply andb_prop in H as [Hb Hl].
  rewrite argmax_max_at.
  - destruct (max_at row t); cbn [length]; rewrite IH by exact Hl; reflexivity.
  - apply Nat.ltb_lt in Hb. destruct row; [cbn in Hb; lia | discriminate].
Qed.

End Torch.

(** ** The [Model] classes of the tutorial, on tensor geometries *)

Module Models.
Import Py Torch.
Local Open Scope nat_scope.

(** Step 2: the linear classifier.
    [batch_size, num_channels, height, width = x.size()] raises
    [ValueError] unless [x] has four dimensions. *)
Module Linear.

Definition forward (x : tensor) : result size :=
  match sizes x with
  | [batch_size; num_channels; height; width] =>
      match view x [D batch_size; Infer] with
      | inl e => inl e
      | inr x1 => linear (28 * 28) 10 x1
      end
  | _ => raise ValueError
  end.

End Linear.

(** Step 5: the three-layer perceptron; its second and third layers take
    what the layer before them returns. *)
Module MLP.

Definition forward (x : tensor) : result size :=
  match sizes x with
  | [batch_size; num_channels; height; width] =>
      match view x [D batch_size; Infer] with
      | inl e => inl e
      | inr x1 =>
          match linear (28 * 28) 200 x1 with
          | inl e => inl e
          | inr h1 =>
              match relu h1 with
              | inl e => inl e
              | inr h1' =>
                  match linear_rows 200 200 h1' with
                  | inl e => inl e
                  | inr h2 =>
                      match relu h2 with
                      | inl e => inl e
                      | inr h2' => linear_rows 200 10 h2'
                      end
                  end
              end
          end
      end
  | _ => raise ValueError
  end.

End MLP.

Lemma shape_four (x : geometry) (b c h w : nat) :
  shape x = [b; c; h; w] ->
  exists s0 s1 s2 s3, x = [(b, s0); (c, s1); (h, s2); (w, s3)].
Proof.
  destruct x as [|[b' s0] [|[c' s1] [|[h' s2] [|[w' s3] [|d x]]]]]; cbn; intro H;
    inversion H; subst.
  exists s0, s1, s2, s3. reflexivity.
Qed.

Lemma numel_four (b c h w : nat) : numel [b; c; h; w] = b * (c * h * w).
Proof. cbn [numel fold_right]. lia. Qed.

(** Flattening all but the batch dimension of a contiguous batch. *)
Lemma view_flatten (x : tensor) (b c h w : nat) :
  sizes x = [b; c; h; w] -> 1 <= b -> 1 < c * h * w ->
  is_contiguous (strided x) = true ->
  view x [D b; Infer]
  = ok {| strided := [(b, c * h * w); (c * h * w, 1)];
          dtype := dtype x; device := device x |}.
Proof.
  intros Hx Hb Hn Hc. unfold view, view_geometry. unfold sizes in Hx.
  rewrite Hx, numel_four, infer_flatten by exact Hb.
  unfold ok. destruct (shape_four _ _ _ _ _ Hx) as (s0 & s1 & s2 & s3 & E).
  rewrite E in *. rewrite compute_stride_flatten by assumption. reflexivity.
Qed.

(** What [view(batch_size, -1)] infers for a 4-dimensional tensor. *)
Lemma infer_four (b c h w : nat) (s : size) :
  infer_size [D b; Infer] (numel [b; c; h; w]) = ok s ->
  1 <= b /\ s = [b; c * h * w].
Proof.
  rewrite numel_four. destruct b as [|b'].
  - unfold infer_size. cbn. discriminate.
  - rewrite infer_flatten by lia. intro H. inversion H. split; [lia | reflexivity].
Qed.

(** An input whose flattening returns has at least one sample, and the
    flattened tensor has its type, its device and the inferred lengths. *)
Lemma view_four (x x1 : tensor) (b c h w : nat) :
  sizes x = [b; c; h; w] -> view x [D b; Infer] = ok x1 ->
  1 <= b /\ sizes x1 = [b; c * h * w] /\ dtype x1 = dtype x /\ device x1 = device x.
Proof.
  intros Hx H. unfold view in H.
  destruct (view_geometry (strided x) [D b; Infer]) as [e | g] eqn:Ev; [discriminate|].
  inversion H; subst x1. cbn [dtype device]. unfold sizes in *. cbn [strided].
  apply view_shape in Ev. rewrite Hx in Ev. apply infer_four in Ev as [Hb Es].
  auto.
Qed.

Lemma linear_matrix (i o : nat) (x : tensor) (b k : nat) :
  sizes x = [b; k] -> dtype x = float32 -> device x = cpu ->
  linear i o x = if k =? i then ok [b; o] else
                   raise (LibraryError "mat1 and mat2 shapes cannot be multiplied").
Proof. intros Hs Ht Hd. unfold linear. rewrite Hd, Ht, Hs. reflexivity. Qed.

(** When the layer returns, its input was a matrix of rows of
    [in_features] entries, of the parameters' type and on their device. *)
Lemma linear_returns (i o : nat) (x : tensor) (b k : nat) (y : size) :
  sizes x = [b; k] -> linear i o x = ok y ->
  k = i /\ y = [b; o] /\ dtype x = float32 /\ device x = cpu.
Proof.
  intros Hs H. unfold linear in H.
  destruct (device x); try discriminate.
  destruct (dtype x); try discriminate.
  rewrite Hs in H. cbn [linear_rows rev app] in H.
  destruct (Nat.eqb_spec k i) as [E|_]; [|discriminate].
  inversion H. auto.
Qed.

Lemma unpack_four (x : tensor) :
  length (sizes x) <> 4 -> Linear.forward x = raise ValueError.
Proof.
  unfold Linear.forward.
  destruct (sizes x) as [|a [|b [|c [|d [|e s]]]]]; cbn [length]; try reflexivity.
  intro H. exfalso. apply H. reflexivity.
Qed.

(** The tensor [x.transpose(2, 3)] of a delivered tensor [x] of the
    lengths [(n, c, h, w)]: the last two dimensions exchanged, no element
    moved. *)
Definition transposed (n c h w : nat) : tensor :=
  {| strided := match fresh [n; c; h; w] with
                | [d0; d1; d2; d3] => [d0; d1; d3; d2]
                | g => g
                end;
     dtype := float32; device := cpu |}.

(** [x.double()] of a delivered tensor [x]. *)
Definition doubles (s : size) : tensor :=
  {| strided := fresh s; dtype := float64; device := cpu |}.

(** [x.to('meta')] of a delivered tensor [x]. *)
Definition on_meta (s : size) : tensor :=
  {| strided := fresh s; dtype := float32; device := meta |}.

(** C10, as the code has it: on a contiguous 4-dimensional input of the
    lengths [(batch_size, num_channels, height, width)], of [float32]
    elements on the CPU like the model's parameters, with at least one
    sample and [num_channels * height * width = 28 * 28], the linear
    [Model]'s [forward] returns a tensor of the lengths [(batch_size,
    10)].  Whatever the input's strides, type and device, [forward] raises
    when the flattened size of a sample differs from [28 * 28]; what it
    returns has the lengths [(batch_size, 10)], and it returns only for a
    non-empty batch of [float32] samples of size [28 * 28] on the CPU; and
    it raises [ValueError] when the input is not 4-dimensional. *)
Theorem linear_forward_size (x : tensor) (b c h w : nat) :
  sizes x = [b; c; h; w] ->
  (1 <= b -> c * h * w = 28 * 28 ->
   is_contiguous (strided x) = true -> dtype x = float32 -> device x = cpu ->
   Linear.forward x = ok [b; 10]) /\
  (c * h * w <> 28 * 28 -> exists e, Linear.forward x = raise e) /\
  (forall y, Linear.forward x = ok y ->
             1 <= b /\ c * h * w = 28 * 28 /\ dtype x = float32 /\ device x = cpu /\
             y = [b; 10]) /\
  (forall x', length (sizes x') <> 4 -> Linear.forward x' = raise ValueError).
Proof.
  intro Hx.
  assert (Hok : forall y, Linear.forward x = ok y ->
                          1 <= b /\ c * h * w = 28 * 28 /\ dtype x = float32 /\
                          device x = cpu /\ y = [b; 10]).
  { intros y H. unfold Linear.forward in H. rewrite Hx in H.
    destruct (view x [D b; Infer]) as [e | x1] eqn:Ev; [discriminate|].
    apply (view_four _ _ _ _ _ _ Hx) in Ev as (Hb & Hs & Ht & Hd).
    apply (linear_returns _ _ _ _ _ _ Hs) in H as (Hk & Hy & Ht1 & Hd1).
    repeat split; congruence. }
  split; [|split; [|split]].
  - intros Hb Hchw Hc Ht Hd. unfold Linear.forward. rewrite Hx.
    rewrite (view_flatten x b c h w Hx Hb) by (rewrite ?Hchw; cbn; auto; lia).
    unfold ok. rewrite (linear_matrix _ _ _ b (c * h * w)) by (cbn; auto).
    rewrite Hchw, Nat.eqb_refl. reflexivity.
  - intro Hchw. destruct (Linear.forward x) as [e | y] eqn:E.
    + exists e. reflexivity.
    + destruct (Hok y eq_refl) as (_ & Hbad & _). contradiction.
  - exact Hok.
  - apply unpack_four.
Qed.

(** C10 fails as stated on four inputs of the lengths [(batch_size, 1,
    28, 28)]: an empty batch, whose [view(0, -1)] is refused as ambiguous;
    a batch of 64 images with height and width transposed, which [view]
    cannot flatten without a copy; a batch of [float64] images; and a batch
    held by another device than the parameters. *)
Lemma linear_forward_refused :
  (sizes (delivered [0; 1; 28; 28]) = [0; 1; 28; 28] /\
   Linear.forward (delivered [0; 1; 28; 28]) =
   raise (LibraryError "cannot reshape tensor of 0 elements: -1 is ambiguous")) /\
  (sizes (transposed 64 1 28 28) = [64; 1; 28; 28] /\
   Linear.forward (transposed 64 1 28 28) =
   raise (LibraryError "view size is not compatible with input tensor's size and stride")) /\
  (sizes (doubles [64; 1; 28; 28]) = [64; 1; 28; 28] /\
   Linear.forward (doubles [64; 1; 28; 28]) =
   raise (LibraryError "mat1 and mat2 must have the same dtype")) /\
  (sizes (on_meta [64; 1; 28; 28]) = [64; 1; 28; 28] /\
   Linear.forward (on_meta [64; 1; 28; 28]) =
   raise (LibraryError "Expected all tensors to be on the same device")).
Proof. repeat split; reflexivity. Qed.

Lemma linear_forward_size_witness :
  Linear.forward (delivered [64; 1; 28; 28]) = ok [64; 10] /\
  (exists e, Linear.forward (delivered [64; 3; 32; 32]) = raise e) /\
  Linear.forward (delivered [28; 28]) = raise ValueError.
Proof.
  destruct (linear_forward_size (delivered [64; 1; 28; 28]) 64 1 28 28 eq_refl)
    as (H1 & _ & _ & H4).
  destruct (linear_forward_size (delivered [64; 3; 32; 32]) 64 3 32 32 eq_refl)
    as (_ & H2 & _).
  split; [apply H1; [lia | reflexivity | reflexivity | reflexivity | reflexivity]|].
  split; [apply H2; vm_compute; discriminate | apply H4; cbn; lia].
Defined.

(** The perceptron of Step 5 accepts and refuses the same inputs as the
    linear classifier: a contiguous 4-dimensional [float32] input on the
    CPU with at least one sample and [28 * 28] entries per sample gives a
    tensor of the lengths [(batch_size, 10)]; an input it accepts has at
    least one sample and [28 * 28] entries per sample. *)
Theorem mlp_forward_size (x : tensor) (b c h w : nat) :
  sizes x = [b; c; h; w] ->
  (1 <= b -> c * h * w = 28 * 28 ->
   is_contiguous (strided x) = true -> dtype x = float32 -> device x = cpu ->
   MLP.forward x = ok [b; 10]) /\
  (forall y, MLP.forward x = ok y -> 1 <= b /\ c * h * w = 28 * 28 /\ y = [b; 10]).
Proof.
  intro Hx. split.
  - intros Hb Hchw Hc Ht Hd. unfold MLP.forward. rewrite Hx.
    rewrite (view_flatten x b c h w Hx Hb) by (rewrite ?Hchw; cbn; auto; lia).
    unfold ok. rewrite (linear_matrix _ _ _ b (c * h * w)) by (cbn; auto).
    rewrite Hchw, Nat.eqb_refl. reflexivity.
  - intros y H. unfold MLP.forward in H. rewrite Hx in H.
    destruct (view x [D b; Infer]) as [e | x1] eqn:Ev; [discriminate|].
    apply (view_four _ _ _ _ _ _ Hx) in Ev as (Hb & Hs & Ht & Hd).
    destruct (linear (28 * 28) 200 x1) as [e | h1] eqn:El; [discriminate|].
    apply (linear_returns _ _ _ _ _ _ Hs) in El as (Hk & -> & _).
    cbn in H. inversion H. auto.
Qed.

Lemma mlp_forward_size_witness :
  MLP.forward (delivered [64; 1; 28; 28]) = ok [64; 10].
Proof.
  apply (mlp_forward_size (delivered [64; 1; 28; 28]) 64 1 28 28 eq_refl);
    [lia | reflexivity | reflexivity | reflexivity | reflexivity].
Defined.

End Models.

(** ** The autograd cell: which tensors get a gradient *)

Module Autograd.
Import Py.
Local Open Scope Q_scope.

(** A one-element tensor and the computation that produced it.  A leaf
    is a tensor the cell created ([id] names the Python object). *)
Inductive tensor : Type :=
| Leaf (id : nat) (value : Q) (requires_grad : bool)
| Add (x y : tensor)
| Mul (x y : tensor).

Fixpoint value (t : tensor) : Q :=
  match t with
  | Leaf _ v _ => v
  | Add x y => value x + value y
  | Mul x y => value x * value y
  end.

Fixpoint requires_grad (t : tensor) : bool :=
  match t with
  | Leaf _ _ r => r
  | Add x y | Mul x y => requires_grad x || requires_grad y
  end.

(** The leaves' [.grad] fields. *)
Definition grads : Type := nat -> option Q.

Definition no_grads : grads := fun _ => None.

(** Gradients accumulate into [.grad]. *)
Definition accumulate (g : grads) (id : nat) (u : Q) : grads :=
  fun j => if (j =? id)%nat
           then Some (match g j with None => u | Some old => old + u end)
           else g j.

(** The chain rule from a node down to the leaves that require a
    gradient. *)
Fixpoint backprop (t : tensor) (upstream : Q) (g : grads) : grads :=
  match t with
  | Leaf id _ r => if r then accumulate g id upstream else g
  | Add x y => backprop y upstream (backprop x upstream g)
  | Mul x y => backprop y (upstream * value x) (backprop x (upstream * value y) g)
  end.

(** [t.backward()] on a one-element tensor. *)
Definition backward (t : tensor) (g : grads) : result grads :=
  if requires_grad t
  then ok (backprop t 1 g)
  else raise (LibraryError "element 0 of tensors does not require grad").

(** The cell: [a], [b] without and [x] with [requires_grad], and
    [y = a*(x*x) + b]. *)
Definition a (v : Q) : tensor := Leaf 0 v false.
Definition b (v : Q) : tensor := Leaf 1 v false.
Definition x (v : Q) : tensor := Leaf 2 v true.
Definition y (va vb vx : Q) : tensor := Add (Mul (a va) (Mul (x vx) (x vx))) (b vb).



(** No leaf named [id] in the computation requires a gradient. *)
Fixpoint constant (id : nat) (t : tensor) : bool :=
  match t with
  | Leaf j _ r => negb ((j =? id)%nat && r)
  | Add x y | Mul x y => constant id x && constant id y
  end.

Lemma backprop_constant (id : nat) (t : tensor) (upstream : Q) (g : grads) :
  constant id t = true -> backprop t upstream g id = g id.
Proof.
  revert upstream g. induction t as [j v r | x IHx y IHy | x IHx y IHy];
    intros upstream g H; cbn [constant backprop] in *.
  - destruct r; [|reflexivity]. unfold accumulate.
    destruct (Nat.eqb_spec id j) as [E|_]; [|reflexivity].
    subst j. rewrite Nat.eqb_refl in H. discriminate.
  - apply andb_prop in H as [Hx Hy]. rewrite IHy, IHx by assumption. reflexivity.
  - apply andb_prop in H as [Hx Hy]. rewrite IHy, IHx by assumption. reflexivity.
Qed.

(** [backward] leaves the [.grad] of a tensor created without
    [requires_grad] as it was: in the cell, [a.grad] and [b.grad] stay
    [None] whatever the values. *)
Theorem backward_skips_constants (id : nat) (t : tensor) (g g' : grads) :
  constant id t = true -> backward t g = ok g' -> g' id = g id.
Proof.
  intros Hc H. unfold backward in H. destruct (requires_grad t); [|discriminate].
  inversion H. apply backprop_constant, Hc.
Qed.

Lemma backward_skips_constants_witness :
  exists g', backward (y 1 1 1) no_grads = ok g' /\ g' 0%nat = None.
Proof.
  eexists. split; [reflexivity|].
  apply (backward_skips_constants 0 (y 1 1 1) no_grads); reflexivity.
Defined.

End Autograd.

(** ** The notebooks' cells *)

Module Lab.
Import Py Torch.
Local Open Scope nat_scope.

(** What [print] writes. *)
Inductive line : Type :=
| Train_line (epoch : nat) (loss : Q) (correct num_samples : nat) (accuracy : Q)
| Eval_line (name : string) (loss : Q) (correct num_samples : nat) (accuracy : Q)
| Dashes.

(** Which of the notebook's three lists a loader reads. *)
Inductive partition : Type := P_train | P_dev | P_test.

(** The calls a cell makes into the interpreter and the libraries; a
    loader's [next] is recorded with the list it reads and the indices of
    the batch. *)
Inductive op : Type :=
| Op_dataset (train : bool)
| Op_int
| Op_getitem (i : Z)
| Op_train_mode
| Op_eval_mode
| Op_next (p : partition) (indices : list nat)
| Op_zero_grad
| Op_forward
| Op_cross_entropy
| Op_backward
| Op_step
| Op_div
| Op_print (l : line).

(** A call and the exception it raised, if any. *)
Record event : Type := { ev_op : op; ev_raised : option exn }.

Definition trace : Type := list event.

Definition stdout (t : trace) : list line :=
  flat_map (fun ev => match ev_op ev with Op_print l => [l] | _ => [] end) t.

Definition next_batches (t : trace) : list (list nat) :=
  flat_map (fun ev => match ev_op ev with Op_next _ b => [b] | _ => [] end) t.

Definition is_step (o : op) : bool :=
  match o with Op_step => true | _ => false end.

Definition is_backward (o : op) : bool :=
  match o with Op_backward => true | _ => false end.

Definition is_mode (o : op) : bool :=
  match o with Op_train_mode | Op_eval_mode => true | _ => false end.

(** [torch.utils.data.DataLoader(dataset, batch_size=..., shuffle=True)] *)
Record DataLoader : Type := { dataset : partition; batch_size : nat }.

(** The tutorial's training settings ([lr = .01] and [momentum = 0.5] as
    exact rationals). *)
Module Tutorial.

Definition batch_size : nat := 64.
Definition epochs : nat := 10.
Definition lr : Q := 1 # 100.
Definition momentum : Q := 1 # 2.

Definition train_loader : DataLoader := Build_DataLoader P_train batch_size.
Definition dev_loader : DataLoader := Build_DataLoader P_dev batch_size.
Definition test_loader : DataLoader := Build_DataLoader P_test batch_size.

End Tutorial.

Section Notebook.

Set Default Proof Using "Type".

(** A raw image of the downloaded files and the tensor
    [normalize_image] turns it into. *)
Variables Raw Image : Type.
Variable normalize_image : Raw -> Image.

(** [datasets.MNIST('data', train=b, download=True)] (or [CIFAR10]): the
    images and labels of one of the two files, or the library's exception. *)
Variable files : bool -> result (list (Raw * nat)).

(** [model(data)] at the given parameters, in train or eval mode: the
    rows of logits the library computes for a batch of images, or its
    exception. *)
Variable net : list Q -> bool -> list Image -> result (list (list Q)).

(** The cross-entropy of one row of logits against its label. *)
Variable sample_loss : list Q -> nat -> result Q.

(** What [loss.backward()] adds to the parameters' [.grad]: the gradient
    of the batch loss at the current parameters. *)
Variable loss_grad : list Q -> bool -> list Image -> list nat -> result (list Q).

(** The optimizer's settings. *)
Variables lr momentum : Q.

(** The default of [zero_grad]'s argument [set_to_none]: [False] in the
    library the notebooks were run with, [True] from PyTorch 2.0 on. *)
Variable set_to_none : bool.

(** One element of a dataset: where it comes from and what
    [dataset[i]] returns. *)
Record item : Type := {
  it_train : bool;
  it_index : nat;
  it_image : Image;
  it_label : nat
}.

(** The objects the cells share: the three lists, the model and the
    optimizer. *)
Record state : Type := {
  train : list item;
  dev : list item;
  test : list item;
  params : list Q;
  grads : option (list Q);
  training : bool;
  momentum_buffer : option (list Q)
}.

Definition data (s : state) (p : partition) : list item :=
  match p with
  | P_train => train s
  | P_dev => dev s
  | P_test => test s
  end.

(** A cell: it changes the shared objects, makes calls, and returns or
    raises. *)
Definition M (A : Type) : Type := state -> state * trace * result A.

Definition ret {A : Type} (x : A) : M A := fun s => (s, [], inr x).

Definition bind {A B : Type} (c : M A) (k : A -> M B) : M B :=
  fun s =>
    let '(s1, t1, r) := c s in
    match r with
    | inl e => (s1, t1, inl e)
    | inr x => let '(s2, t2, r2) := k x s1 in (s2, t1 ++ t2, r2)
    end.

Definition gets {A : Type} (f : state -> A) : M A := fun s => (s, [], inr (f s)).

(** One call: its event records whether it raised. *)
Definition call {A : Type} (o : op) (f : state -> state * result A) : M A :=
  fun s =>
    let '(s1, r) := f s in
    (s1, [ {| ev_op := o;
              ev_raised := match r with inl e => Some e | inr _ => None end |} ], r).

Local Notation "x <- c ;; k" := (bind c (fun x => k))
  (at level 61, c at next level, right associativity).
Local Notation "c ;;; k" := (bind c (fun _ => k))
  (at level 61, right associativity).

(** [for x in xs: acc = body(x, acc)] *)
Fixpoint for_each {X S : Type} (xs : list X) (body : X -> S -> M S) (acc : S) : M S :=
  match xs with
  | [] => ret acc
  | x :: xs' => acc' <- body x acc ;; for_each xs' body acc'
  end.

(** *** Step 1: loading data *)

Definition tag (b : bool) (raws : list (Raw * nat)) : list item :=
  map (fun ir => {| it_train := b; it_index := fst ir;
                    it_image := normalize_image (fst (snd ir));
                    it_label := snd (snd ir) |})
      (combine (seq 0 (length raws)) raws).

Definition load_dataset (b : bool) : M (list item) :=
  call (Op_dataset b)
       (fun s => (s, match files b with inl e => inl e | inr raws => inr (tag b raws) end)).

Definition py_int (x : spec_float) : M Z :=
  call Op_int (fun s => (s, PyFloat.int_of_float x)).

Definition py_getitem (xs : list item) (i : Z) : M item :=
  call (Op_getitem i) (fun s => (s, getitem xs i)).

(** [[xs[i] for i in indices]] *)
Definition comprehension (xs : list item) (indices : list Z) : M (list item) :=
  for_each indices (fun i acc => x <- py_getitem xs i ;; ret (acc ++ [x])) [].

Definition put_lists (s : state) (tr dv te : list item) : state :=
  {| train := tr; dev := dv; test := te; params := params s;
     grads := grads s; training := training s;
     momentum_buffer := momentum_buffer s |}.

(** The assignments [train = ...], [dev = ...] and [test = ...]. *)
Definition assign_train (tr : list item) : M unit :=
  fun s => (put_lists s tr (dev s) (test s), [], inr tt).

Definition assign_dev (dv : list item) : M unit :=
  fun s => (put_lists s (train s) dv (test s), [], inr tt).

Definition assign_test (te : list item) : M unit :=
  fun s => (put_lists s (train s) (dev s) te, [], inr tt).

Definition len (xs : list item) : Z := Z.of_nat (length xs).

Definition load_cell : M unit :=
  all_train <- load_dataset true ;;
  num_train <- py_int (PyFloat.int_mul_float (len all_train) PyFloat.point8) ;;
  tr <- comprehension all_train (range 0 num_train) ;;
  assign_train tr ;;;
  dv <- comprehension all_train (range num_train (len all_train)) ;;
  assign_dev dv ;;;
  te <- load_dataset false ;;
  assign_test te.

(** *** Step 3: the training procedure *)

Definition set_mode (s : state) (b : bool) : state :=
  {| train := train s; dev := dev s; test := test s;
     params := params s; grads := grads s; training := b;
     momentum_buffer := momentum_buffer s |}.

(** [model.train()] and [model.eval()] *)
Definition set_training (b : bool) : M unit :=
  call (if b then Op_train_mode else Op_eval_mode) (fun s => (set_mode s b, inr tt)).

(** [dataset[i]] for a sampled index. *)
Definition fetch (xs : list item) (i : nat) : result item :=
  match nth_error xs i with
  | Some x => inr x
  | None => inl IndexError
  end.

(** The loader's next batch: [dataset[i]] for each sampled index. *)
Definition next_batch (ld : DataLoader) (indices : list nat) : M (list item) :=
  call (Op_next (dataset ld) indices)
       (fun s => (s, traverse (fetch (data s (dataset ld))) indices)).

(** [optimizer.zero_grad()]: existing gradients are zeroed, or dropped
    when [set_to_none] holds. *)
Definition zero_grad : M unit :=
  call Op_zero_grad
       (fun s => ({| train := train s; dev := dev s; test := test s;
                     params := params s;
                     grads := if set_to_none then None
                              else option_map (map (fun _ => 0%Q)) (grads s);
                     training := training s;
                     momentum_buffer := momentum_buffer s |}, inr tt)).

(** [model(data)] *)
Definition forward (images : list Image) : M (list (list Q)) :=
  call Op_forward (fun s => (s, net (params s) (training s) images)).

(** [F.cross_entropy(output, target)]: there must be one row per target
    and every target must index a class; the result is the mean of the
    rows' losses. *)
Definition cross_entropy (output : list (list Q)) (target : list nat) : M Q :=
  call Op_cross_entropy
       (fun s => (s,
          if length output =? length target
          then
            if forallb (fun rt => snd rt <? length (fst rt)) (combine output target)
            then match traverse (fun rt => sample_loss (fst rt) (snd rt))
                                (combine output target) with
                 | inl e => inl e
                 | inr ls => inr (Qmean ls)
                 end
            else inl (LibraryError "Target is out of bounds")
          else inl (LibraryError "input batch_size does not match target batch_size"))).

(** [loss.backward()]: gradients accumulate into [.grad]. *)
Definition backward (images : list Image) (target : list nat) : M unit :=
  call Op_backward
       (fun s => match loss_grad (params s) (training s) images target with
                 | inl e => (s, inl e)
                 | inr g =>
                     ({| train := train s; dev := dev s; test := test s;
                         params := params s;
                         grads := Some (match grads s with
                                        | None => g
                                        | Some old => zip_with Qplus old g
                                        end);
                         training := training s;
                         momentum_buffer := momentum_buffer s |}, inr tt)
                 end).

(** [optimizer.step()]: parameters without a gradient are skipped. *)
Definition step : M unit :=
  call Op_step
       (fun s => match grads s with
                 | None => (s, inr tt)
                 | Some g =>
                     let pb := sgd_step lr momentum (params s) g (momentum_buffer s) in
                     ({| train := train s; dev := dev s; test := test s;
                         params := fst pb; grads := grads s;
                         training := training s;
                         momentum_buffer := snd pb |}, inr tt)
                 end).

Definition Qnat (n : nat) : Q := inject_Z (Z.of_nat n).

(** [x / n] with an [int] divisor. *)
Definition py_div (x : Q) (n : nat) : M Q :=
  call Op_div (fun s => (s, if n =? 0 then inl ZeroDivisionError
                            else inr (x / Qnat n)%Q)).

Definition print (l : line) : M unit :=
  call (Op_print l) (fun s => (s, inr tt)).

(** The body of [train_epoch]'s loop; [acc] is [(total_loss, correct)]. *)
Definition train_batch (ld : DataLoader) (indices : list nat) (acc : Q * nat)
  : M (Q * nat) :=
  batch <- next_batch ld indices ;;
  let data := map it_image batch in
  let target := map it_label batch in
  zero_grad ;;;
  output <- forward data ;;
  loss <- cross_entropy output target ;;
  backward data target ;;;
  step ;;;
  ret ((fst acc + loss)%Q, snd acc + count_correct output target).

(** [train_epoch(model, train_loader, optimizer, epoch)]; [order] is the
    index order the loader's [RandomSampler] draws for this pass. *)
Definition train_epoch (train_loader : DataLoader) (order : list nat) (epoch : nat)
  : M unit :=
  set_training true ;;;
  num_samples <- gets (fun s => length (data s (dataset train_loader))) ;;
  acc <- for_each (batch_sampler (batch_size train_loader) [] order)
                  (train_batch train_loader) (0%Q, 0) ;;
  loss <- py_div (fst acc) num_samples ;;
  accuracy <- py_div (100 * Qnat (snd acc))%Q num_samples ;;
  print (Train_line epoch loss (snd acc) num_samples accuracy).

(** The body of [eval_epoch]'s loop; [acc] is [(test_loss, correct)]. *)
Definition eval_batch (ld : DataLoader) (indices : list nat) (acc : Q * nat)
  : M (Q * nat) :=
  batch <- next_batch ld indices ;;
  let data := map it_image batch in
  let target := map it_label batch in
  output <- forward data ;;
  loss <- cross_entropy output target ;;
  ret ((fst acc + loss)%Q, snd acc + count_correct output target).

(** [eval_epoch(model, test_loader, name)] *)
Definition eval_epoch (test_loader : DataLoader) (order : list nat) (name : string)
  : M unit :=
  set_training false ;;;
  acc <- for_each (batch_sampler (batch_size test_loader) [] order)
                  (eval_batch test_loader) (0%Q, 0) ;;
  num_samples <- gets (fun s => length (data s (dataset test_loader))) ;;
  test_loss <- py_div (fst acc) num_samples ;;
  accuracy <- py_div (100 * Qnat (snd acc))%Q num_samples ;;
  print (Eval_line name test_loss (snd acc) num_samples accuracy).

(** *** Step 4: training the model *)

(** [for epoch in range(1, epochs + 1): ...]; [train_orders] and
    [dev_orders] give the two loaders' index order in each epoch. *)
Definition training_loop (epochs : nat) (train_loader dev_loader : DataLoader)
  (train_orders dev_orders : nat -> list nat) : M unit :=
  for_each (seq 1 epochs)
           (fun epoch _ =>
              train_epoch train_loader (train_orders epoch) epoch ;;;
              eval_epoch dev_loader (dev_orders epoch) "Dev" ;;;
              print Dashes)
           tt.

(** *** Reasoning about cells *)

Definition final {A : Type} (c : M A) (s : state) : state := fst (fst (c s)).
Definition emitted {A : Type} (c : M A) (s : state) : trace := snd (fst (c s)).
Definition outcome {A : Type} (c : M A) (s : state) : result A := snd (c s).

(** [normally c s P]: when [c] returns from [s], [P] holds of the final
    state, the trace and the value. *)
Definition normally {A : Type} (c : M A) (s : state)
  (P : state -> trace -> A -> Prop) : Prop :=
  forall s' t x, c s = (s', t, inr x) -> P s' t x.

(** [always R c]: a relation between the state before, the emitted trace
    and the state after that holds whether [c] returns or raises. *)
Definition always {A : Type} (R : state -> trace -> state -> Prop) (c : M A) : Prop :=
  forall s, R s (emitted c s) (final c s).

(** No event of the trace raised. *)
Definition clean (t : trace) : Prop := Forall (fun ev => ev_raised ev = None) t.

(** The outcome is what the trace shows: a returning cell saw no raise;
    a raising cell raises the exception of its last call, and no call
    before that one raised. *)
Definition faithful {A : Type} (t : trace) (r : result A) : Prop :=
  match r with
  | inr _ => clean t
  | inl e => exists pre o, t = pre ++ [ {| ev_op := o; ev_raised := Some e |} ]
                           /\ clean pre
  end.

Definition propagates {A : Type} (c : M A) : Prop :=
  forall s, faithful (emitted c s) (outcome c s).

Lemma run_eta {A : Type} (c : M A) (s : state) :
  c s = (final c s, emitted c s, outcome c s).
Proof. unfold final, emitted, outcome. destruct (c s) as [[s1 t1] r]. reflexivity. Qed.


Lemma bind_inr {A B : Type} (c : M A) (k : A -> M B) s s1 t1 x :
  c s = (s1, t1, inr x) ->
  bind c k s = (final (k x) s1, t1 ++ emitted (k x) s1, outcome (k x) s1).
Proof.
  intro H. unfold bind. rewrite H. rewrite (run_eta (k x) s1). reflexivity.
Qed.

Lemma bind_returns {A B : Type} (c : M A) (k : A -> M B) s s2 t y :
  bind c k s = (s2, t, inr y) ->
  exists s1 t1 x t2, c s = (s1, t1, inr x) /\ k x s1 = (s2, t2, inr y) /\ t = t1 ++ t2.
Proof.
  unfold bind. destruct (c s) as [[s1 t1] [e | x]]; [discriminate|].
  destruct (k x s1) as [[s2' t2] r2] eqn:Ek. intro H. inversion H; subst.
  exists s1, t1, x, t2. auto.
Qed.

Lemma normally_ret {A : Type} (x : A) s (P : state -> trace -> A -> Prop) :
  P s [] x -> normally (ret x) s P.
Proof. intros HP s' t y H. inversion H; subst. exact HP. Qed.

Lemma normally_gets {A : Type} (f : state -> A) s (P : state -> trace -> A -> Prop) :
  P s [] (f s) -> normally (gets f) s P.
Proof. intros HP s' t y H. inversion H; subst. exact HP. Qed.

Lemma normally_bind {A B : Type} (c : M A) (k : A -> M B) s
  (P : state -> trace -> A -> Prop) (Q : state -> trace -> B -> Prop) :
  normally c s P ->
  (forall s1 t1 x, P s1 t1 x ->
     normally (k x) s1 (fun s2 t2 y => Q s2 (t1 ++ t2) y)) ->
  normally (bind c k) s Q.
Proof.
  intros Hc Hk s2 t y H.
  destruct (bind_returns _ _ _ _ _ _ H) as [s1 [t1 [x [t2 [E1 [E2 Et]]]]]].
  subst t. exact (Hk _ _ _ (Hc _ _ _ E1) _ _ _ E2).
Qed.

Lemma normally_weaken {A : Type} (c : M A) s (P Q : state -> trace -> A -> Prop) :
  normally c s P -> (forall s' t x, P s' t x -> Q s' t x) -> normally c s Q.
Proof. intros H HPQ s' t x E. apply HPQ, (H _ _ _ E). Qed.

Lemma normally_call {A : Type} (o : op) (f : state -> state * result A) s
  (P : state -> trace -> A -> Prop) :
  (forall s1 x, f s = (s1, inr x) ->
     P s1 [ {| ev_op := o; ev_raised := None |} ] x) ->
  normally (call o f) s P.
Proof.
  intros HP s' t x H. unfold call in H.
  destruct (f s) as [s1 [e | y]] eqn:Ef; inversion H; subst.
  apply HP. reflexivity.
Qed.

Lemma normally_for_each {X S : Type} (body : X -> S -> M S)
  (Inv : list X -> state -> trace -> S -> Prop) :
  (forall done x s t acc, Inv done s t acc ->
     normally (body x acc) s (fun s' t' acc' => Inv (done ++ [x]) s' (t ++ t') acc')) ->
  forall xs done s t acc, Inv done s t acc ->
    normally (for_each xs body acc) s
             (fun s' t' acc' => Inv (done ++ xs) s' (t ++ t') acc').
Proof.
  intros Hbody xs. induction xs as [|x xs IH]; intros done s t acc HI.
  - apply normally_ret. rewrite !app_nil_r. exact HI.
  - cbn [for_each]. eapply normally_bind.
    + apply (Hbody done x s t acc HI).
    + intros s1 t1 acc1 H1. cbv beta in H1.
      eapply normally_weaken; [apply (IH _ _ _ _ H1)|].
      intros s' t' acc'. cbv beta. rewrite <- !app_assoc. cbn [app]. auto.
Qed.

Section Always.
Variable R : state -> trace -> state -> Prop.
Hypothesis R_refl : forall s, R s [] s.
Hypothesis R_trans : forall s t1 s1 t2 s2, R s t1 s1 -> R s1 t2 s2 -> R s (t1 ++ t2) s2.

Lemma always_ret {A : Type} (x : A) : always R (ret x).
Proof using R_refl. intro s. apply R_refl. Qed.

Lemma always_gets {A : Type} (f : state -> A) : always R (gets f).
Proof using R_refl. intro s. apply R_refl. Qed.

Lemma always_bind {A B : Type} (c : M A) (k : A -> M B) :
  always R c -> (forall x, always R (k x)) -> always R (bind c k).
Proof using R_trans.
  intros Hc Hk s. specialize (Hc s). unfold always, final, emitted in *.
  unfold bind. destruct (c s) as [[s1 t1] [e | x]]; cbn [fst snd] in *.
  - exact Hc.
  - specialize (Hk x s1). destruct (k x s1) as [[s2 t2] r2]; cbn [fst snd] in *.
    eapply R_trans; eassumption.
Qed.

Lemma always_for_each {X S : Type} (body : X -> S -> M S) :
  (forall x acc, always R (body x acc)) ->
  forall xs acc, always R (for_each xs body acc).
Proof using R_refl R_trans.
  intros Hb xs. induction xs as [|x xs IH]; intro acc; cbn [for_each].
  - apply always_ret.
  - apply always_bind; [apply Hb | intro; apply IH].
Qed.

End Always.

Lemma always_call {A : Type} (R : state -> trace -> state -> Prop) (o : op)
  (f : state -> state * result A) :
  (forall s e, R s [ {| ev_op := o; ev_raised := e |} ] (fst (f s))) ->
  always R (call o f).
Proof.
  intros H s. unfold final, emitted, call.
  destruct (f s) as [s1 r] eqn:Ef. cbn [fst snd].
  specialize (H s (match r with inl e => Some e | inr _ => None end)).
  rewrite Ef in H. exact H.
Qed.

Lemma clean_app (t1 t2 : trace) : clean t1 -> clean t2 -> clean (t1 ++ t2).
Proof. unfold clean. intros. apply Forall_app. auto. Qed.

Lemma faithful_app {A B : Type} (t1 t2 : trace) (x : A) (r : result B) :
  faithful t1 (inr x : result A) -> faithful t2 r -> faithful (t1 ++ t2) r.
Proof.
  intros H1 H2. destruct r as [e | y]; cbn [faithful] in *.
  - destruct H2 as [pre [o [E Hc]]]. exists (t1 ++ pre), o. split.
    + rewrite E, app_assoc. reflexivity.
    + apply clean_app; assumption.
  - apply clean_app; assumption.
Qed.

Lemma propagates_ret {A : Type} (x : A) : propagates (ret x).
Proof. intro s. constructor. Qed.

Lemma propagates_gets {A : Type} (f : state -> A) : propagates (gets f).
Proof. intro s. constructor. Qed.

Lemma propagates_call {A : Type} (o : op) (f : state -> state * result A) :
  propagates (call o f).
Proof.
  intro s. unfold emitted, outcome, call. destruct (f s) as [s1 [e | x]]; cbn.
  - exists [], o. split; [reflexivity | constructor].
  - repeat constructor.
Qed.

Lemma propagates_bind {A B : Type} (c : M A) (k : A -> M B) :
  propagates c -> (forall x, propagates (k x)) -> propagates (bind c k).
Proof.
  intros Hc Hk s. specialize (Hc s). unfold propagates, emitted, outcome in *.
  unfold bind. destruct (c s) as [[s1 t1] [e | x]]; cbn [fst snd] in *.
  - exact Hc.
  - specialize (Hk x s1). destruct (k x s1) as [[s2 t2] r2]; cbn [fst snd] in *.
    eapply faithful_app; eassumption.
Qed.

Lemma propagates_for_each {X S : Type} (body : X -> S -> M S) :
  (forall x acc, propagates (body x acc)) ->
  forall xs acc, propagates (for_each xs body acc).
Proof.
  intros Hb xs. induction xs as [|x xs IH]; intro acc; cbn [for_each].
  - apply propagates_ret.
  - apply propagates_bind; [apply Hb | intro; apply IH].
Qed.

Lemma call_returns {A : Type} (o : op) (f : state -> state * result A) s s' t x :
  call o f s = (s', t, inr x) ->
  f s = (s', inr x) /\ t = [ {| ev_op := o; ev_raised := None |} ].
Proof.
  unfold call. destruct (f s) as [s1 [e | y]]; intro H; inversion H; subst. auto.
Qed.

Lemma call_run {A : Type} (o : op) (f : state -> state * result A) s s1 x :
  f s = (s1, inr x) ->
  call o f s = (s1, [ {| ev_op := o; ev_raised := None |} ], inr x).
Proof. intro H. unfold call. rewrite H. reflexivity. Qed.

Lemma bind_run {A B : Type} (c : M A) (k : A -> M B) s s1 t1 x s2 t2 r :
  c s = (s1, t1, inr x) -> k x s1 = (s2, t2, r) -> bind c k s = (s2, t1 ++ t2, r).
Proof. intros H1 H2. unfold bind. rewrite H1, H2. reflexivity. Qed.

Lemma ret_returns {A : Type} (x : A) s s' t y :
  ret x s = (s', t, inr y) -> s' = s /\ t = [] /\ y = x.
Proof. intro H. inversion H. auto. Qed.

Lemma gets_returns {A : Type} (f : state -> A) s s' t y :
  gets f s = (s', t, inr y) -> s' = s /\ t = [] /\ y = f s.
Proof. intro H. inversion H. auto. Qed.

Lemma final_bind {A B : Type} (c : M A) (k : A -> M B) s :
  final (bind c k) s =
  match outcome c s with
  | inl _ => final c s
  | inr x => final (k x) (final c s)
  end.
Proof.
  unfold final, outcome, bind. destruct (c s) as [[s1 t1] [e | x]]; cbn [fst snd].
  - reflexivity.
  - destruct (k x s1) as [[s2 t2] r2]. reflexivity.
Qed.

Lemma emitted_bind {A B : Type} (c : M A) (k : A -> M B) s :
  emitted (bind c k) s =
  emitted c s ++ match outcome c s with
                 | inl _ => []
                 | inr x => emitted (k x) (final c s)
                 end.
Proof.
  unfold final, emitted, outcome, bind.
  destruct (c s) as [[s1 t1] [e | x]]; cbn [fst snd].
  - rewrite app_nil_r. reflexivity.
  - destruct (k x s1) as [[s2 t2] r2]. reflexivity.
Qed.

Lemma outcome_bind {A B : Type} (c : M A) (k : A -> M B) s :
  outcome (bind c k) s =
  match outcome c s with
  | inl e => inl e
  | inr x => outcome (k x) (final c s)
  end.
Proof.
  unfold final, outcome, bind. destruct (c s) as [[s1 t1] [e | x]]; cbn [fst snd].
  - reflexivity.
  - destruct (k x s1) as [[s2 t2] r2]. reflexivity.
Qed.

Lemma stdout_app (t1 t2 : trace) : stdout (t1 ++ t2) = stdout t1 ++ stdout t2.
Proof. unfold stdout. apply flat_map_app. Qed.

Lemma next_batches_app (t1 t2 : trace) :
  next_batches (t1 ++ t2) = next_batches t1 ++ next_batches t2.
Proof. unfold next_batches. apply flat_map_app. Qed.

(** *** What each call touches *)

(** The three lists are left alone. *)
Definition same_lists (s : state) (t : trace) (s' : state) : Prop :=
  train s' = train s /\ dev s' = dev s /\ test s' = test s.

(** The parameters and the optimizer's buffer are left alone by a trace
    with no [optimizer.step()]. *)
Definition only_step_updates (s : state) (t : trace) (s' : state) : Prop :=
  Forall (fun ev => is_step (ev_op ev) = false) t ->
  params s' = params s /\ momentum_buffer s' = momentum_buffer s.

(** Nothing of the model or the optimizer but the mode flag changes, and
    neither [backward] nor [step] is called. *)
Definition evaluation_only (s : state) (t : trace) (s' : state) : Prop :=
  params s' = params s /\ grads s' = grads s /\
  momentum_buffer s' = momentum_buffer s /\
  Forall (fun ev => is_step (ev_op ev) = false /\ is_backward (ev_op ev) = false) t.

Definition same_mode (s : state) (t : trace) (s' : state) : Prop :=
  training s' = training s.

Definition quiet (s : state) (t : trace) (s' : state) : Prop := stdout t = [].

Lemma same_lists_refl s : same_lists s [] s.
Proof. repeat split. Qed.

Lemma same_lists_trans s t1 s1 t2 s2 :
  same_lists s t1 s1 -> same_lists s1 t2 s2 -> same_lists s (t1 ++ t2) s2.
Proof.
  unfold same_lists. intros (A1 & B1 & C1) (A2 & B2 & C2).
  repeat split; congruence.
Qed.

Lemma only_step_updates_refl s : only_step_updates s [] s.
Proof. intro. split; reflexivity. Qed.

Lemma only_step_updates_trans s t1 s1 t2 s2 :
  only_step_updates s t1 s1 -> only_step_updates s1 t2 s2 ->
  only_step_updates s (t1 ++ t2) s2.
Proof.
  unfold only_step_updates. intros H1 H2 HF. apply Forall_app in HF as [F1 F2].
  destruct (H1 F1), (H2 F2). split; congruence.
Qed.

Lemma evaluation_only_refl s : evaluation_only s [] s.
Proof. repeat split. constructor. Qed.

Lemma evaluation_only_trans s t1 s1 t2 s2 :
  evaluation_only s t1 s1 -> evaluation_only s1 t2 s2 ->
  evaluation_only s (t1 ++ t2) s2.
Proof.
  unfold evaluation_only. intros (A1 & B1 & C1 & D1) (A2 & B2 & C2 & D2).
  repeat split; try congruence. apply Forall_app. auto.
Qed.

Lemma same_mode_refl s : same_mode s [] s.
Proof. reflexivity. Qed.

Lemma same_mode_trans s t1 s1 t2 s2 :
  same_mode s t1 s1 -> same_mode s1 t2 s2 -> same_mode s (t1 ++ t2) s2.
Proof. unfold same_mode. congruence. Qed.

Lemma quiet_refl s : quiet s [] s.
Proof. reflexivity. Qed.

Lemma quiet_trans s t1 s1 t2 s2 :
  quiet s t1 s1 -> quiet s1 t2 s2 -> quiet s (t1 ++ t2) s2.
Proof. unfold quiet. intros H1 H2. rewrite stdout_app, H1, H2. reflexivity. Qed.

Ltac frame_side :=
  first [ exact same_lists_refl | exact same_lists_trans
        | exact only_step_updates_refl | exact only_step_updates_trans
        | exact evaluation_only_refl | exact evaluation_only_trans
        | exact same_mode_refl | exact same_mode_trans
        | exact quiet_refl | exact quiet_trans ].

Ltac frame_call :=
  apply always_call; intros ? ?; cbn [fst snd];
  repeat match goal with
         | |- context [match ?x with _ => _ end] => destruct x
         end;
  unfold set_mode;
  cbn [fst snd train dev test params grads training momentum_buffer];
  unfold same_lists, only_step_updates, evaluation_only, same_mode, quiet;
  cbn [fst snd train dev test params grads training momentum_buffer
       stdout flat_map ev_op app is_step is_backward];
  intros;
  repeat match goal with
         | H : Forall _ (_ :: _) |- _ => inversion H; clear H; subst
         end;
  cbn [is_step is_backward ev_op] in *; try discriminate;
  repeat split; auto.

(** The bookkeeping of a frame proof: split the cell along its binds and
    loops, then look at each call. *)
Ltac frame_steps :=
  repeat lazymatch goal with
    | |- always _ (bind _ _) => apply always_bind; [frame_side | | intro]
    | |- always _ (for_each _ _ _) =>
        apply always_for_each; [frame_side | frame_side | intros ? ?]
    | |- always _ (ret _) => apply always_ret; frame_side
    | |- always _ (gets _) => apply always_gets; frame_side
    | |- always _ (call _ _) => frame_call
    end.

Lemma eval_batch_evaluation_only ld indices acc :
  always evaluation_only (eval_batch ld indices acc).
Proof.
  unfold eval_batch, next_batch, forward, cross_entropy.
  frame_steps.
Qed.

Lemma eval_batch_same_lists ld indices acc :
  always same_lists (eval_batch ld indices acc).
Proof.
  unfold eval_batch, next_batch, forward, cross_entropy.
  frame_steps.
Qed.

Lemma eval_batch_same_mode ld indices acc :
  always same_mode (eval_batch ld indices acc).
Proof.
  unfold eval_batch, next_batch, forward, cross_entropy.
  frame_steps.
Qed.

Lemma eval_batch_quiet ld indices acc :
  always quiet (eval_batch ld indices acc).
Proof.
  unfold eval_batch, next_batch, forward, cross_entropy.
  frame_steps.
Qed.

Lemma train_batch_same_lists ld indices acc :
  always same_lists (train_batch ld indices acc).
Proof.
  unfold train_batch, next_batch, zero_grad, forward, cross_entropy, backward, step.
  frame_steps.
Qed.

Lemma train_batch_only_step_updates ld indices acc :
  always only_step_updates (train_batch ld indices acc).
Proof.
  unfold train_batch, next_batch, zero_grad, forward, cross_entropy, backward, step.
  frame_steps.
Qed.

Lemma train_batch_quiet ld indices acc :
  always quiet (train_batch ld indices acc).
Proof.
  unfold train_batch, next_batch, zero_grad, forward, cross_entropy, backward, step.
  frame_steps.
Qed.

Lemma eval_epoch_evaluation_only ld order name :
  always evaluation_only (eval_epoch ld order name).
Proof.
  unfold eval_epoch, set_training, py_div, print. frame_steps.
  apply eval_batch_evaluation_only.
Qed.

Lemma eval_epoch_same_lists ld order name :
  always same_lists (eval_epoch ld order name).
Proof.
  unfold eval_epoch, set_training, py_div, print. frame_steps.
  apply eval_batch_same_lists.
Qed.

Lemma eval_epoch_only_step_updates ld order name :
  always only_step_updates (eval_epoch ld order name).
Proof.
  intro s. destruct (eval_epoch_evaluation_only ld order name s) as (A & _ & C & _).
  intros _. split; assumption.
Qed.

Lemma train_epoch_same_lists ld order epoch :
  always same_lists (train_epoch ld order epoch).
Proof.
  unfold train_epoch, set_training, py_div, print. frame_steps.
  apply train_batch_same_lists.
Qed.

Lemma train_epoch_only_step_updates ld order epoch :
  always only_step_updates (train_epoch ld order epoch).
Proof.
  unfold train_epoch, set_training, py_div, print. frame_steps.
  apply train_batch_only_step_updates.
Qed.

Lemma training_loop_same_lists epochs tl dl tos dos :
  always same_lists (training_loop epochs tl dl tos dos).
Proof.
  unfold training_loop, print. frame_steps.
  - apply train_epoch_same_lists.
  - apply eval_epoch_same_lists.
Qed.

Lemma training_loop_only_step_updates epochs tl dl tos dos :
  always only_step_updates (training_loop epochs tl dl tos dos).
Proof.
  unfold training_loop, print. frame_steps.
  - apply train_epoch_only_step_updates.
  - apply eval_epoch_only_step_updates.
Qed.

(** *** What a cell emits *)

Definition prefix {Y : Type} (a b : list Y) : Prop := exists c, b = a ++ c.

(** The part of a trace a selector keeps. *)
Definition select {Y : Type} (sel : op -> list Y) (t : trace) : list Y :=
  flat_map (fun ev => sel (ev_op ev)) t.

(** [emits sel c L]: from any state, the selected calls of [c] are [L]
    when [c] returns, and a prefix of [L] when it raises. *)
Definition emits {Y A : Type} (sel : op -> list Y) (c : M A) (L : list Y) : Prop :=
  forall s, prefix (select sel (emitted c s)) L /\
            (forall x, outcome c s = inr x -> select sel (emitted c s) = L).

Lemma select_app {Y : Type} (sel : op -> list Y) (t1 t2 : trace) :
  select sel (t1 ++ t2) = select sel t1 ++ select sel t2.
Proof. apply flat_map_app. Qed.

Lemma prefix_refl {Y : Type} (a : list Y) : prefix a a.
Proof. exists []. rewrite app_nil_r. reflexivity. Qed.

Lemma prefix_app_r {Y : Type} (a b c : list Y) : prefix a b -> prefix a (b ++ c).
Proof. intros [d ->]. exists (d ++ c). rewrite app_assoc. reflexivity. Qed.

Lemma prefix_app_l {Y : Type} (a b c : list Y) : prefix b c -> prefix (a ++ b) (a ++ c).
Proof. intros [d ->]. exists d. rewrite app_assoc. reflexivity. Qed.

Lemma prefix_length {Y : Type} (a b : list Y) : prefix a b -> length a <= length b.
Proof. intros [c ->]. rewrite length_app. lia. Qed.

Lemma prefix_Forall {Y : Type} (P : Y -> Prop) (a b : list Y) :
  prefix a b -> Forall P b -> Forall P a.
Proof. intros [c ->] H. apply Forall_app in H. exact (proj1 H). Qed.

Lemma emits_ret {Y A : Type} (sel : op -> list Y) (x : A) : emits sel (ret x) [].
Proof. intro s. split; [apply prefix_refl | reflexivity]. Qed.

Lemma emits_gets {Y A : Type} (sel : op -> list Y) (f : state -> A) :
  emits sel (gets f) [].
Proof. intro s. split; [apply prefix_refl | reflexivity]. Qed.

Lemma emits_call {Y A : Type} (sel : op -> list Y) (o : op)
  (f : state -> state * result A) : emits sel (call o f) (sel o).
Proof.
  intro s. unfold emitted, outcome, call, select. destruct (f s) as [s1 r].
  cbn [fst snd flat_map ev_op]. rewrite app_nil_r.
  split; [apply prefix_refl | reflexivity].
Qed.

Lemma emits_call_eq {Y A : Type} (sel : op -> list Y) (o : op)
  (f : state -> state * result A) (L : list Y) :
  sel o = L -> emits sel (call o f) L.
Proof. intros <-. apply emits_call. Qed.

Lemma emits_bind {Y A B : Type} (sel : op -> list Y) (c : M A) (k : A -> M B)
  (L1 L2 : list Y) :
  emits sel c L1 -> (forall x, emits sel (k x) L2) -> emits sel (bind c k) (L1 ++ L2).
Proof.
  intros Hc Hk s. destruct (Hc s) as [P1 F1].
  rewrite emitted_bind, outcome_bind, select_app.
  destruct (outcome c s) as [e | x] eqn:Eo.
  - cbn [select flat_map]. rewrite app_nil_r.
    split; [apply prefix_app_r, P1 | discriminate].
  - rewrite (F1 x eq_refl). destruct (Hk x (final c s)) as [P2 F2]. split.
    + apply prefix_app_l, P2.
    + intros y Hy. rewrite (F2 y Hy). reflexivity.
Qed.

Lemma emits_for_each {Y X S : Type} (sel : op -> list Y) (body : X -> S -> M S)
  (F : X -> list Y) :
  (forall x acc, emits sel (body x acc) (F x)) ->
  forall xs acc, emits sel (for_each xs body acc) (flat_map F xs).
Proof.
  intros Hb xs. induction xs as [|x xs IH]; intro acc; cbn [for_each flat_map].
  - apply emits_ret.
  - apply emits_bind; [apply Hb | intro; apply IH].
Qed.

Lemma emits_eq {Y A : Type} (sel : op -> list Y) (c : M A) (L L' : list Y) :
  emits sel c L -> L = L' -> emits sel c L'.
Proof. intros H <-. exact H. Qed.

(** The library calls of a pass, leaving out the interpreter's divisions
    and the printing. *)
Definition library_call (o : op) : list op :=
  match o with
  | Op_div | Op_print _ => []
  | _ => [o]
  end.

Definition next_indices (o : op) : list (list nat) :=
  match o with Op_next _ b => [b] | _ => [] end.

Definition printed (o : op) : list line :=
  match o with Op_print l => [l] | _ => [] end.

(** What kind of line it is, whatever the numbers in it. *)
Inductive line_kind : Type :=
| K_train (epoch : nat)
| K_eval (name : string)
| K_dashes.

Definition kind_of (l : line) : line_kind :=
  match l with
  | Train_line epoch _ _ _ _ => K_train epoch
  | Eval_line name _ _ _ _ => K_eval name
  | Dashes => K_dashes
  end.

Definition printed_kind (o : op) : list line_kind := map kind_of (printed o).

(** The calls [train_epoch] makes for one mini-batch of the loader [ld],
    in order. *)
Definition batch_ops (ld : DataLoader) (indices : list nat) : list op :=
  [Op_next (dataset ld) indices; Op_zero_grad; Op_forward; Op_cross_entropy;
   Op_backward; Op_step].

(** The calls [eval_epoch] makes for one mini-batch of the loader [ld]. *)
Definition eval_batch_ops (ld : DataLoader) (indices : list nat) : list op :=
  [Op_next (dataset ld) indices; Op_forward; Op_cross_entropy].

Ltac emits_steps :=
  repeat lazymatch goal with
    | |- emits _ (bind _ _) _ => eapply emits_bind; [ | intro]
    | |- emits _ (ret _) _ => apply emits_ret
    | |- emits _ (gets _) _ => apply emits_gets
    | |- emits _ (call _ _) _ =>
        apply emits_call_eq;
        cbn [library_call next_indices printed_kind printed map kind_of];
        reflexivity
    end.

Lemma train_batch_emits_calls ld indices acc :
  emits library_call (train_batch ld indices acc) (batch_ops ld indices).
Proof.
  unfold train_batch, next_batch, zero_grad, forward, cross_entropy, backward, step.
  eapply emits_eq; [emits_steps | reflexivity].
Qed.

Lemma eval_batch_emits_calls ld indices acc :
  emits library_call (eval_batch ld indices acc) (eval_batch_ops ld indices).
Proof.
  unfold eval_batch, next_batch, forward, cross_entropy.
  eapply emits_eq; [emits_steps | reflexivity].
Qed.

Lemma train_epoch_emits_calls ld order epoch :
  emits library_call (train_epoch ld order epoch)
        (Op_train_mode :: flat_map (batch_ops ld) (batch_sampler (batch_size ld) [] order)).
Proof.
  unfold train_epoch, set_training, py_div, print.
  eapply emits_eq.
  - emits_steps. apply emits_for_each. intros. apply train_batch_emits_calls.
  - cbn [library_call app]. rewrite app_nil_r. reflexivity.
Qed.

Lemma eval_epoch_emits_calls ld order name :
  emits library_call (eval_epoch ld order name)
        (Op_eval_mode :: flat_map (eval_batch_ops ld) (batch_sampler (batch_size ld) [] order)).
Proof.
  unfold eval_epoch, set_training, py_div, print.
  eapply emits_eq.
  - emits_steps. apply emits_for_each. intros. apply eval_batch_emits_calls.
  - cbn [library_call app]. rewrite app_nil_r. reflexivity.
Qed.

Lemma train_batch_emits_next ld indices acc :
  emits next_indices (train_batch ld indices acc) [indices].
Proof.
  unfold train_batch, next_batch, zero_grad, forward, cross_entropy, backward, step.
  eapply emits_eq; [emits_steps | reflexivity].
Qed.

Lemma eval_batch_emits_next ld indices acc :
  emits next_indices (eval_batch ld indices acc) [indices].
Proof.
  unfold eval_batch, next_batch, forward, cross_entropy.
  eapply emits_eq; [emits_steps | reflexivity].
Qed.

Lemma flat_map_singleton {Y : Type} (xs : list Y) : flat_map (fun x => [x]) xs = xs.
Proof. induction xs as [|x xs IH]; cbn; congruence. Qed.

Lemma train_epoch_emits_next ld order epoch :
  emits next_indices (train_epoch ld order epoch)
        (batch_sampler (batch_size ld) [] order).
Proof.
  unfold train_epoch, set_training, py_div, print.
  eapply emits_eq.
  - emits_steps. apply emits_for_each. intros. apply train_batch_emits_next.
  - cbn [next_indices app]. rewrite app_nil_r. apply flat_map_singleton.
Qed.

Lemma eval_epoch_emits_next ld order name :
  emits next_indices (eval_epoch ld order name)
        (batch_sampler (batch_size ld) [] order).
Proof.
  unfold eval_epoch, set_training, py_div, print.
  eapply emits_eq.
  - emits_steps. apply emits_for_each. intros. apply eval_batch_emits_next.
  - cbn [next_indices app]. rewrite app_nil_r. apply flat_map_singleton.
Qed.

Lemma train_batch_emits_kinds ld indices acc :
  emits printed_kind (train_batch ld indices acc) [].
Proof.
  unfold train_batch, next_batch, zero_grad, forward, cross_entropy, backward, step.
  eapply emits_eq; [emits_steps | reflexivity].
Qed.

Lemma eval_batch_emits_kinds ld indices acc :
  emits printed_kind (eval_batch ld indices acc) [].
Proof.
  unfold eval_batch, next_batch, forward, cross_entropy.
  eapply emits_eq; [emits_steps | reflexivity].
Qed.

Lemma flat_map_nil {X Y : Type} (xs : list X) : flat_map (fun _ : X => @nil Y) xs = [].
Proof. induction xs; cbn; auto. Qed.

Lemma train_epoch_emits_kinds ld order epoch :
  emits printed_kind (train_epoch ld order epoch) [K_train epoch].
Proof.
  unfold train_epoch, set_training, py_div, print.
  eapply emits_eq.
  - emits_steps. apply emits_for_each. intros. apply train_batch_emits_kinds.
  - cbn [printed_kind printed map kind_of app]. rewrite flat_map_nil. reflexivity.
Qed.

Lemma eval_epoch_emits_kinds ld order name :
  emits printed_kind (eval_epoch ld order name) [K_eval name].
Proof.
  unfold eval_epoch, set_training, py_div, print.
  eapply emits_eq.
  - emits_steps. apply emits_for_each. intros. apply eval_batch_emits_kinds.
  - cbn [printed_kind printed map kind_of app]. rewrite flat_map_nil. reflexivity.
Qed.

Lemma training_loop_emits_kinds epochs tl dl tos dos :
  emits printed_kind (training_loop epochs tl dl tos dos)
        (flat_map (fun epoch => [K_train epoch; K_eval "Dev"; K_dashes]) (seq 1 epochs)).
Proof.
  unfold training_loop. apply emits_for_each. intros epoch _.
  eapply emits_eq.
  - emits_steps.
    + apply train_epoch_emits_kinds.
    + apply eval_epoch_emits_kinds.
    + unfold print. emits_steps.
  - reflexivity.
Qed.

Lemma training_loop_emits_calls epochs tl dl tos dos :
  emits library_call (training_loop epochs tl dl tos dos)
        (flat_map (fun epoch =>
                     (Op_train_mode ::
                        flat_map (batch_ops tl) (batch_sampler (batch_size tl) [] (tos epoch)))
                     ++ Op_eval_mode ::
                        flat_map (eval_batch_ops dl) (batch_sampler (batch_size dl) [] (dos epoch)))
                  (seq 1 epochs)).
Proof.
  unfold training_loop. apply emits_for_each. intros epoch _.
  eapply emits_eq.
  - emits_steps.
    + apply train_epoch_emits_calls.
    + apply eval_epoch_emits_calls.
    + unfold print. emits_steps.
  - cbn [library_call]. rewrite app_nil_r. reflexivity.
Qed.

(** *** Exceptions pass through *)

Ltac propagates_steps :=
  repeat lazymatch goal with
    | |- propagates (bind _ _) => apply propagates_bind; [ | intro]
    | |- propagates (for_each _ _ _) => apply propagates_for_each; intros ? ?
    | |- propagates (ret _) => apply propagates_ret
    | |- propagates (gets _) => apply propagates_gets
    | |- propagates (call _ _) => apply propagates_call
    end.

Lemma propagates_assign_train tr : propagates (assign_train tr).
Proof. intro s. constructor. Qed.

Lemma propagates_assign_dev dv : propagates (assign_dev dv).
Proof. intro s. constructor. Qed.

Lemma propagates_assign_test te : propagates (assign_test te).
Proof. intro s. constructor. Qed.

Lemma propagates_load_cell : propagates load_cell.
Proof.
  unfold load_cell, load_dataset, py_int, comprehension, py_getitem.
  propagates_steps;
    first [ apply propagates_assign_train | apply propagates_assign_dev
          | apply propagates_assign_test ].
Qed.

Lemma propagates_train_epoch ld order epoch : propagates (train_epoch ld order epoch).
Proof.
  unfold train_epoch, train_batch, set_training, next_batch, zero_grad, forward,
    cross_entropy, backward, step, py_div, print.
  propagates_steps.
Qed.

Lemma propagates_eval_epoch ld order name : propagates (eval_epoch ld order name).
Proof.
  unfold eval_epoch, eval_batch, set_training, next_batch, forward,
    cross_entropy, py_div, print.
  propagates_steps.
Qed.

Lemma propagates_training_loop epochs tl dl tos dos :
  propagates (training_loop epochs tl dl tos dos).
Proof.
  unfold training_loop, print. propagates_steps.
  - apply propagates_train_epoch.
  - apply propagates_eval_epoch.
Qed.

(** *** What the loops compute *)

(** The elements the indices name, in order. *)
Definition picked (xs : list item) (indices : list nat) : list item :=
  flat_map (fun i => match nth_error xs i with Some x => [x] | None => [] end) indices.

(** The rows of logits the model returns for a mini-batch. *)
Definition rows (p : list Q) (mode : bool) (batch : list item) : list (list Q) :=
  match net p mode (map it_image batch) with
  | inr output => output
  | inl _ => []
  end.

(** The samples of a mini-batch, each as the row the model returned for
    it in this batch and its label. *)
Definition scored (p : list Q) (mode : bool) (batch : list item) : list (list Q * nat) :=
  combine (rows p mode batch) (map it_label batch).

(** The predicted class is the label. *)
Definition hit (rl : list Q * nat) : bool := max_at (fst rl) (snd rl).

(** The loss of a row against its label, [0] standing for a refusal. *)
Definition row_loss (rl : list Q * nat) : Q :=
  match sample_loss (fst rl) (snd rl) with
  | inr l => l
  | inl _ => 0%Q
  end.

Definition batch_loss (p : list Q) (mode : bool) (batch : list item) : Q :=
  Qmean (map row_loss (scored p mode batch)).

Definition batch_correct (p : list Q) (mode : bool) (batch : list item) : nat :=
  length (filter hit (scored p mode batch)).

(** What the loops add up: one mean per mini-batch. *)
Definition sum_of_batch_means (p : list Q) (mode : bool) (xs : list item)
  (batches : list (list nat)) (start : Q) : Q :=
  fold_left (fun a b => (a + batch_loss p mode (picked xs b))%Q) batches start.

(** All the samples of a pass, mini-batch after mini-batch. *)
Definition all_scored (p : list Q) (mode : bool) (xs : list item)
  (batches : list (list nat)) : list (list Q * nat) :=
  flat_map (fun b => scored p mode (picked xs b)) batches.

(** A model that computes each row from its own image alone. *)
Definition rowwise (p : list Q) (mode : bool) (logits : Image -> result (list Q)) : Prop :=
  forall images, net p mode images = traverse logits images.

Definition row_of (logits : Image -> result (list Q)) (x : item) : list Q * nat :=
  (match logits (it_image x) with inr row => row | inl _ => [] end, it_label x).

(** The sample's predicted class is its label. *)
Definition correctly_classified (logits : Image -> result (list Q)) (x : item) : bool :=
  hit (row_of logits x).

(** The sample's loss. *)
Definition loss_of (logits : Image -> result (list Q)) (x : item) : Q :=
  row_loss (row_of logits x).

(** The gradient autograd returns has the shape of the parameters. *)
Definition grad_shaped : Prop :=
  forall p mode images target g,
    loss_grad p mode images target = inr g -> length g = length p.

(** A gradient left on the parameters covers them. *)
Definition grad_fits (s : state) : Prop :=
  forall g0, grads s = Some g0 -> length (params s) <= length g0.

(** The model and the optimizer after one SGD update along the gradient
    [g], which is left on the parameters. *)
Definition sgd_update (s : state) (g : list Q) : state :=
  {| train := train s; dev := dev s; test := test s;
     params := fst (sgd_step lr momentum (params s) g (momentum_buffer s));
     grads := Some g;
     training := training s;
     momentum_buffer := snd (sgd_step lr momentum (params s) g (momentum_buffer s)) |}.

(** Following the claim's words, one pass of mini-batch gradient descent
    as a function: for each mini-batch in turn, the gradient of its loss at
    the current parameters, then one update; alongside, the sums of the
    batch losses and of the correct predictions, both taken before the
    update. *)
Fixpoint descent (ld : DataLoader) (batches : list (list nat)) (s : state)
  (acc : Q * nat) : result (state * (Q * nat)) :=
  match batches with
  | [] => ok (s, acc)
  | b :: rest =>
      let batch := picked (data s (dataset ld)) b in
      match loss_grad (params s) (training s) (map it_image batch) (map it_label batch) with
      | inl e => inl e
      | inr g =>
          descent ld rest (sgd_update s g)
                  ((fst acc + batch_loss (params s) (training s) batch)%Q,
                   snd acc + batch_correct (params s) (training s) batch)
      end
  end.

(** The training loop as a function on the model and the optimizer: a
    pass of descent in train mode for each epoch, each followed by the
    switch to eval mode that the evaluation leaves behind. *)
Fixpoint descents (ld : DataLoader) (orders : nat -> list nat) (epochs : list nat)
  (s : state) : result state :=
  match epochs with
  | [] => ok s
  | epoch :: rest =>
      match descent ld (batch_sampler (batch_size ld) [] (orders epoch))
                    (set_mode s true) (0%Q, 0) with
      | inl e => inl e
      | inr (s1, _) => descents ld orders rest (set_mode s1 false)
      end
  end.

Lemma traverse_length {A B : Type} (f : A -> result B) (xs : list A) (ys : list B) :
  traverse f xs = inr ys -> length ys = length xs.
Proof.
  revert ys. induction xs as [|x xs IH]; intros ys H; cbn [traverse] in H.
  - inversion H. reflexivity.
  - destruct (f x) as [e | y]; [discriminate|].
    destruct (traverse f xs) as [e | ys']; [discriminate|].
    inversion H; subst. cbn [length]. f_equal. apply IH. reflexivity.
Qed.

Lemma traverse_fetch (xs : list item) (indices : list nat) (batch : list item) :
  traverse (fetch xs) indices = inr batch -> batch = picked xs indices.
Proof.
  revert batch. induction indices as [|i rest IH]; intros batch H; cbn [traverse] in H.
  - inversion H. reflexivity.
  - unfold fetch at 1 in H. cbn [picked flat_map].
    destruct (nth_error xs i) as [x|]; [|discriminate].
    destruct (traverse (fetch xs) rest) as [e | ys]; [discriminate|].
    inversion H; subst. cbn [app]. f_equal. apply IH. reflexivity.
Qed.

Lemma picked_app xs a b : picked xs (a ++ b) = picked xs a ++ picked xs b.
Proof. apply flat_map_app. Qed.

Lemma skipn_cons_nth {A : Type} (xs : list A) (a : nat) (x : A) :
  nth_error xs a = Some x -> skipn a xs = x :: skipn (S a) xs.
Proof.
  revert a. induction xs as [|y xs IH]; intros [|a] H; cbn in H; try discriminate.
  - inversion H. reflexivity.
  - cbn [skipn]. apply IH. exact H.
Qed.

Lemma picked_seq_from (xs : list item) (a n : nat) :
  a + n <= length xs -> picked xs (seq a n) = firstn n (skipn a xs).
Proof.
  revert a. induction n as [|n IH]; intros a Ha; [reflexivity|].
  cbn [seq picked flat_map]. fold (picked xs (seq (S a) n)).
  rewrite IH by lia.
  destruct (nth_error xs a) as [x|] eqn:E.
  - rewrite (skipn_cons_nth _ _ _ E). reflexivity.
  - apply nth_error_None in E. lia.
Qed.

Lemma picked_all (xs : list item) : picked xs (seq 0 (length xs)) = xs.
Proof. rewrite picked_seq_from by lia. cbn [skipn]. apply firstn_all. Qed.

Lemma picked_permutation (xs : list item) (order : list nat) :
  Permutation order (seq 0 (length xs)) -> Permutation (picked xs order) xs.
Proof.
  intro H. rewrite <- (picked_all xs) at 2. unfold picked.
  apply Permutation_flat_map. exact H.
Qed.

Lemma filter_length_permutation {A : Type} (f : A -> bool) (l l' : list A) :
  Permutation l l' -> length (filter f l) = length (filter f l').
Proof.
  induction 1 as [|x l l' _ IH|x y l|l l' l'' _ IH1 _ IH2]; cbn [filter].
  - reflexivity.
  - destruct (f x); cbn [length]; congruence.
  - destruct (f x), (f y); reflexivity.
  - congruence.
Qed.

Lemma traverse_row_loss (l : list (list Q * nat)) (ls : list Q) :
  traverse (fun rt => sample_loss (fst rt) (snd rt)) l = inr ls -> ls = map row_loss l.
Proof.
  revert ls. induction l as [|rt l IH]; intros ls H; cbn [traverse] in H.
  - inversion H. reflexivity.
  - cbn [map]. unfold row_loss at 1.
    destruct (sample_loss (fst rt) (snd rt)) as [e | x]; [discriminate|].
    destruct (traverse _ l) as [e | ls']; [discriminate|].
    inversion H; subst. f_equal. apply IH. reflexivity.
Qed.

Lemma emitted_of_run {A : Type} (c : M A) s s' t (r : result A) :
  c s = (s', t, r) -> emitted c s = t /\ final c s = s' /\ outcome c s = r.
Proof. intro H. unfold emitted, final, outcome. rewrite H. auto. Qed.

(** The model returns one row for each sample of the mini-batch [b]. *)
Definition answered (p : list Q) (mode : bool) (xs : list item) (b : list nat) : Prop :=
  exists output, net p mode (map it_image (picked xs b)) = inr output /\
                 length output = length (picked xs b).

Lemma scored_labels (p : list Q) (mode : bool) (xs : list item) (b : list nat) :
  answered p mode xs b ->
  map snd (scored p mode (picked xs b)) = map it_label (picked xs b).
Proof.
  intros (output & Hout & Hlen). unfold scored, rows. rewrite Hout.
  rewrite <- (length_map it_label) in Hlen. clear Hout.
  revert Hlen. generalize (map it_label (picked xs b)) as labels.
  induction output as [|r output IH]; intros [|l labels] H; cbn [length] in H;
    try reflexivity; try discriminate.
  cbn [combine map snd]. f_equal. apply IH. lia.
Qed.

(** One returning pass of [eval_epoch]'s loop body: the model returned a
    row for every sample of the mini-batch, and the sums grow by the
    batch's mean loss and by its number of correct predictions. *)
Lemma eval_batch_returns ld indices acc s s' t acc' :
  eval_batch ld indices acc s = (s', t, inr acc') ->
  let batch := picked (data s (dataset ld)) indices in
  s' = s /\
  answered (params s) (training s) (data s (dataset ld)) indices /\
  acc' = ((fst acc + batch_loss (params s) (training s) batch)%Q,
          snd acc + batch_correct (params s) (training s) batch).
Proof.
  intros H batch. unfold eval_batch in H.
  apply bind_returns in H as (s1 & t1 & items & t2 & Hn & H & ->).
  cbv beta zeta in H.
  apply bind_returns in H as (s2 & t3 & output & t4 & Hf & H & ->).
  apply bind_returns in H as (s3 & t5 & loss & t6 & Hce & H & ->).
  apply ret_returns in H as (-> & _ & ->).
  unfold next_batch in Hn. apply call_returns in Hn as [Hn _].
  inversion Hn as [[Es1 Hfetch]]; subst s1; clear Hn.
  apply traverse_fetch in Hfetch. fold batch in Hfetch. subst items.
  unfold forward in Hf. apply call_returns in Hf as [Hf _].
  inversion Hf as [[Es2 Hnet]]; subst s2; clear Hf.
  unfold cross_entropy in Hce. apply call_returns in Hce as [Hce _].
  inversion Hce as [[Es3 Hloss]]; subst s3; clear Hce.
  destruct (Nat.eqb_spec (length output) (length (map it_label batch))) as [El|];
    [|discriminate].
  destruct (forallb _ (combine output (map it_label batch))) eqn:Eb; [|discriminate].
  destruct (traverse _ (combine output (map it_label batch))) as [e | ls] eqn:Els;
    [discriminate|].
  inversion Hloss; subst loss; clear Hloss.
  assert (Escored : scored (params s) (training s) batch
                    = combine output (map it_label batch)).
  { unfold scored, rows. rewrite Hnet. reflexivity. }
  split; [reflexivity|]. split.
  - exists output. split; [exact Hnet|]. rewrite El. apply length_map.
  - unfold batch_loss, batch_correct, hit. rewrite Escored.
    rewrite (traverse_row_loss _ _ Els), (count_correct_max_at _ _ Eb). reflexivity.
Qed.

Lemma eval_loop_returns ld batches acc s s' t acc' :
  for_each batches (eval_batch ld) acc s = (s', t, inr acc') ->
  let xs := data s (dataset ld) in
  s' = s /\
  Forall (answered (params s) (training s) xs) batches /\
  fst acc' = sum_of_batch_means (params s) (training s) xs batches (fst acc) /\
  snd acc' = snd acc + length (filter hit (all_scored (params s) (training s) xs batches)).
Proof.
  revert acc s t. induction batches as [|b batches IH]; intros acc s t H xs;
    cbn [for_each] in H.
  - apply ret_returns in H as (-> & _ & ->). cbn. auto.
  - apply bind_returns in H as (s1 & t1 & acc1 & t2 & Hb & Hrest & _).
    apply eval_batch_returns in Hb as (-> & Hans & ->).
    apply IH in Hrest as (-> & Hall & Hl & Hc). fold xs in Hall, Hl, Hc.
    cbn [fst snd] in Hl, Hc.
    split; [reflexivity|]. split; [constructor; assumption|].
    unfold all_scored in *. cbn [flat_map concat sum_of_batch_means fold_left].
    rewrite filter_app, length_app.
    split; [exact Hl|].
    rewrite Hc. unfold batch_correct. fold xs. lia.
Qed.

Lemma eval_loop_quiet ld batches acc :
  always quiet (for_each batches (eval_batch ld) acc).
Proof. frame_steps. apply eval_batch_quiet. Qed.

Lemma train_loop_quiet ld batches acc :
  always quiet (for_each batches (train_batch ld) acc).
Proof. frame_steps. apply train_batch_quiet. Qed.

Lemma data_set_mode s b p : data (set_mode s b) p = data s p.
Proof. destruct p; reflexivity. Qed.

(** A returning [eval_epoch]: the state it leaves and the line it prints. *)
Lemma eval_epoch_returns ld order name s s' t :
  eval_epoch ld order name s = (s', t, inr tt) ->
  let xs := data s (dataset ld) in
  let batches := batch_sampler (batch_size ld) [] order in
  let correct := length (filter hit (all_scored (params s) false xs batches)) in
  s' = set_mode s false /\
  0 < length xs /\
  Forall (answered (params s) false xs) batches /\
  stdout t = [Eval_line name
                (sum_of_batch_means (params s) false xs batches 0 / Qnat (length xs))
                correct (length xs)
                (100 * Qnat correct / Qnat (length xs))].
Proof.
  intro H. unfold eval_epoch, set_training, py_div, print in H.
  apply bind_returns in H as (s1 & t1 & u & t2 & H1 & H & ->).
  apply call_returns in H1 as [H1 ->]. inversion H1; subst s1; clear H1.
  cbv beta in H.
  apply bind_returns in H as (s2 & t3 & acc & t4 & Hloop & H & ->).
  pose proof (eval_loop_quiet ld (batch_sampler (batch_size ld) [] order) (0%Q, 0)
                (set_mode s false)) as Hq.
  apply emitted_of_run in Hloop as Hrun. destruct Hrun as (Et & _ & _).
  unfold quiet in Hq. rewrite Et in Hq.
  apply eval_loop_returns in Hloop as (-> & Hans & Hl & Hcount).
  cbn [fst snd params training set_mode] in Hans, Hl, Hcount.
  cbn [Nat.add] in Hcount.
  rewrite data_set_mode in *.
  cbv beta in H.
  apply bind_returns in H as (s3 & t5 & n & t6 & Hn & H & ->).
  apply gets_returns in Hn as (-> & -> & ->).
  cbv beta in H. rewrite data_set_mode in H.
  apply bind_returns in H as (s4 & t7 & loss & t8 & Hd1 & H & ->).
  apply call_returns in Hd1 as [Hd1 ->].
  cbv beta in H.
  apply bind_returns in H as (s5 & t9 & pct & t10 & Hd2 & H & ->).
  apply call_returns in Hd2 as [Hd2 ->].
  cbv beta in H.
  apply call_returns in H as [H ->].
  destruct (length (data s (dataset ld)) =? 0) eqn:En; [discriminate|].
  apply Nat.eqb_neq in En.
  inversion Hd1; subst. inversion Hd2; subst. inversion H; subst.
  cbv zeta.
  split; [reflexivity|]. split; [lia|]. split; [exact Hans|].
  rewrite !stdout_app, Hq. cbn [stdout flat_map ev_op app].
  rewrite Hl, Hcount. reflexivity.
Qed.

(** *** Models that work row by row *)

Lemma traverse_rows (logits : Image -> result (list Q)) (batch : list item)
  (output : list (list Q)) :
  traverse logits (map it_image batch) = inr output ->
  combine output (map it_label batch) = map (row_of logits) batch.
Proof.
  revert output. induction batch as [|x batch IH]; intros output H; cbn [map traverse] in H.
  - inversion H. reflexivity.
  - unfold row_of at 1. cbn [map].
    destruct (logits (it_image x)) as [e | row]; [discriminate|].
    destruct (traverse logits (map it_image batch)) as [e | rows']; [discriminate|].
    inversion H; subst. cbn [combine]. f_equal. apply IH. reflexivity.
Qed.

Lemma scored_rowwise (p : list Q) (mode : bool) (logits : Image -> result (list Q))
  (xs : list item) (b : list nat) :
  rowwise p mode logits -> answered p mode xs b ->
  scored p mode (picked xs b) = map (row_of logits) (picked xs b).
Proof.
  intros Hrow (output & Hout & _). unfold scored, rows. rewrite Hout.
  rewrite Hrow in Hout. apply traverse_rows, Hout.
Qed.

Lemma all_scored_rowwise (p : list Q) (mode : bool) (logits : Image -> result (list Q))
  (xs : list item) (batches : list (list nat)) :
  rowwise p mode logits -> Forall (answered p mode xs) batches ->
  all_scored p mode xs batches = map (row_of logits) (picked xs (concat batches)).
Proof.
  intros Hrow HF. unfold all_scored. induction HF as [|b batches Hb _ IH].
  - reflexivity.
  - cbn [flat_map concat]. rewrite picked_app, map_app, IH.
    rewrite (scored_rowwise _ _ _ _ _ Hrow Hb). reflexivity.
Qed.

Lemma filter_map_length {A B : Type} (f : A -> B) (h : B -> bool) (l : list A) :
  length (filter h (map f l)) = length (filter (fun x => h (f x)) l).
Proof.
  induction l as [|x l IH]; [reflexivity|].
  cbn [map filter]. destruct (h (f x)); cbn [length]; rewrite IH; reflexivity.
Qed.

(** When the model answered every mini-batch, the samples of the pass
    carry the labels of the picked elements, in order. *)
Lemma all_scored_labels (p : list Q) (mode : bool) (xs : list item)
  (batches : list (list nat)) :
  Forall (answered p mode xs) batches ->
  map snd (all_scored p mode xs batches) = map it_label (picked xs (concat batches)).
Proof.
  unfold all_scored. induction 1 as [|b batches Hb _ IH]; [reflexivity|].
  cbn [flat_map concat]. rewrite map_app, picked_app, map_app, IH.
  f_equal. apply scored_labels, Hb.
Qed.

(** *** What a pass of training does to the model *)

Lemma Qplus_zero (q : Q) : (0 + q)%Q = q.
Proof.
  destruct q as [a b]. unfold Qplus. cbn [Qnum Qden].
  rewrite Z.mul_1_r. reflexivity.
Qed.

(** Adding a gradient to a zeroed one leaves the gradient. *)
Lemma zip_with_zeros (old g : list Q) :
  length g <= length old -> zip_with Qplus (map (fun _ => 0%Q) old) g = g.
Proof.
  revert g. induction old as [|o old IH]; intros [|x g] H; cbn [length] in H;
    try reflexivity; [lia|].
  cbn [map zip_with]. rewrite Qplus_zero. f_equal. apply IH. lia.
Qed.

Lemma zip_with_length {A B C : Type} (f : A -> B -> C) (xs : list A) (ys : list B) :
  length (zip_with f xs ys) <= length xs.
Proof.
  revert ys. induction xs as [|x xs IH]; intros [|y ys]; cbn [zip_with length]; try lia.
  specialize (IH ys). lia.
Qed.

Lemma sgd_step_length (p g : list Q) (buf : option (list Q)) :
  length (fst (sgd_step lr momentum p g buf)) <= length p.
Proof.
  unfold sgd_step. destruct (Qeq_bool momentum 0); cbn [fst]; apply zip_with_length.
Qed.

Lemma grad_fits_update s g :
  length g = length (params s) -> grad_fits (sgd_update s g).
Proof.
  intros Hg g0 H. cbn [sgd_update grads params] in *. inversion H; subst g0.
  rewrite Hg. apply sgd_step_length.
Qed.

Lemma grad_fits_set_mode s b : grad_fits s -> grad_fits (set_mode s b).
Proof. intros H g0. exact (H g0). Qed.

(** One returning pass of [train_epoch]'s loop body: the gradient the
    optimizer steps along is the gradient of this mini-batch alone, the
    previous one having been zeroed; the parameters and the momentum buffer
    become what one SGD step makes of them; the sums grow by the batch's
    mean loss and its correct predictions, both from the output computed
    before the step. *)
Lemma train_batch_returns ld indices acc s s' t acc' :
  grad_shaped -> grad_fits s ->
  train_batch ld indices acc s = (s', t, inr acc') ->
  let batch := picked (data s (dataset ld)) indices in
  exists g,
    loss_grad (params s) (training s) (map it_image batch) (map it_label batch) = inr g /\
    s' = sgd_update s g /\
    acc' = ((fst acc + batch_loss (params s) (training s) batch)%Q,
            snd acc + batch_correct (params s) (training s) batch).
Proof.
  intros Hshape Hfits H batch. unfold train_batch in H.
  apply bind_returns in H as (s1 & t1 & items & t2 & Hn & H & ->).
  cbv beta zeta in H.
  apply bind_returns in H as (s2 & t3 & u1 & t4 & Hz & H & ->).
  apply bind_returns in H as (s3 & t5 & output & t6 & Hf & H & ->).
  apply bind_returns in H as (s4 & t7 & loss & t8 & Hce & H & ->).
  apply bind_returns in H as (s5 & t9 & u2 & t10 & Hb & H & ->).
  apply bind_returns in H as (s6 & t11 & u3 & t12 & Hs & H & ->).
  apply ret_returns in H as (-> & _ & ->).
  unfold next_batch in Hn. apply call_returns in Hn as [Hn _].
  inversion Hn as [[Es1 Hfetch]]; subst s1; clear Hn.
  apply traverse_fetch in Hfetch. fold batch in Hfetch. subst items.
  unfold zero_grad in Hz. apply call_returns in Hz as [Hz _].
  inversion Hz; subst s2; clear Hz.
  unfold forward in Hf. apply call_returns in Hf as [Hf _].
  cbn [params training] in Hf.
  inversion Hf as [[Es3 Hnet]]; subst s3; clear Hf.
  unfold cross_entropy in Hce. apply call_returns in Hce as [Hce _].
  inversion Hce as [[Es4 Hloss]]; subst s4; clear Hce.
  unfold backward in Hb. apply call_returns in Hb as [Hb _].
  cbn [params training grads] in Hb.
  destruct (loss_grad (params s) (training s) (map it_image batch) (map it_label batch))
    as [e | g] eqn:Eg; [inversion Hb|].
  inversion Hb; subst s5; clear Hb.
  unfold step in Hs. apply call_returns in Hs as [Hs _].
  cbn [grads params momentum_buffer train dev test training] in Hs.
  inversion Hs; subst s6; clear Hs.
  destruct (Nat.eqb_spec (length output) (length (map it_label batch))) as [El|];
    [|discriminate].
  destruct (forallb _ (combine output (map it_label batch))) eqn:Eb; [|discriminate].
  destruct (traverse _ (combine output (map it_label batch))) as [e | ls] eqn:Els;
    [discriminate|].
  inversion Hloss; subst loss; clear Hloss.
  assert (Escored : scored (params s) (training s) batch
                    = combine output (map it_label batch)).
  { unfold scored, rows. rewrite Hnet. reflexivity. }
  assert (Egrad : match (if set_to_none then None
                         else option_map (map (fun _ : Q => 0%Q)) (grads s)) with
                  | Some old => zip_with Qplus old g
                  | None => g
                  end = g).
  { destruct set_to_none; [reflexivity|].
    destruct (grads s) as [old|] eqn:Eold; cbn [option_map]; [|reflexivity].
    apply zip_with_zeros. rewrite (Hshape _ _ _ _ _ Eg). apply Hfits, Eold. }
  exists g. split; [reflexivity|]. split.
  - unfold sgd_update. rewrite Egrad. reflexivity.
  - unfold batch_loss, batch_correct, hit. rewrite Escored.
    rewrite (traverse_row_loss _ _ Els), (count_correct_max_at _ _ Eb). reflexivity.
Qed.

(** The loop of [train_epoch] is a pass of descent. *)
Lemma train_loop_returns ld batches acc s s' t acc' :
  grad_shaped -> grad_fits s ->
  for_each batches (train_batch ld) acc s = (s', t, inr acc') ->
  descent ld batches s acc = inr (s', acc').
Proof.
  intro Hshape. revert acc s t.
  induction batches as [|b batches IH]; intros acc s t Hfits H; cbn [for_each] in H.
  - apply ret_returns in H as (-> & _ & ->). reflexivity.
  - apply bind_returns in H as (s1 & t1 & acc1 & t2 & Hb & Hrest & _).
    apply (train_batch_returns _ _ _ _ _ _ _ Hshape Hfits) in Hb as (g & Eg & -> & ->).
    cbn [descent]. cbv zeta. rewrite Eg.
    apply (IH _ _ _ (grad_fits_update _ _ (Hshape _ _ _ _ _ Eg)) Hrest).
Qed.

Lemma descent_lists ld batches s acc s1 acc1 :
  descent ld batches s acc = inr (s1, acc1) ->
  train s1 = train s /\ dev s1 = dev s /\ test s1 = test s /\ training s1 = training s.
Proof.
  revert s acc. induction batches as [|b batches IH]; intros s acc H; cbn [descent] in H.
  - inversion H; subst. auto.
  - cbv zeta in H. destruct (loss_grad _ _ _ _) as [e | g]; [discriminate|].
    apply IH in H. cbn [sgd_update train dev test training] in H. exact H.
Qed.

Lemma descent_fits ld batches s acc s1 acc1 :
  grad_shaped -> grad_fits s ->
  descent ld batches s acc = inr (s1, acc1) -> grad_fits s1.
Proof.
  intro Hshape. revert s acc.
  induction batches as [|b batches IH]; intros s acc Hfits H; cbn [descent] in H.
  - inversion H; subst. exact Hfits.
  - cbv zeta in H. destruct (loss_grad _ _ _ _) as [e | g] eqn:Eg; [discriminate|].
    apply (IH _ _ (grad_fits_update _ _ (Hshape _ _ _ _ _ Eg)) H).
Qed.

(** With momentum, a pass of descent over at least one mini-batch leaves a
    buffer in the optimizer, and a buffer that is there stays. *)
Lemma descent_buffer ld batches s acc s1 acc1 :
  Qeq_bool momentum 0 = false ->
  batches <> [] \/ (exists buf, momentum_buffer s = Some buf) ->
  descent ld batches s acc = inr (s1, acc1) ->
  exists buf, momentum_buffer s1 = Some buf.
Proof.
  intro Hm. revert s acc.
  induction batches as [|b batches IH]; intros s acc Hor H; cbn [descent] in H.
  - inversion H; subst. destruct Hor as [Hne | Hbuf]; [contradiction | exact Hbuf].
  - cbv zeta in H. destruct (loss_grad _ _ _ _) as [e | g]; [discriminate|].
    apply IH in H; [exact H|]. right.
    cbn [sgd_update momentum_buffer]. unfold sgd_step. rewrite Hm. cbn [snd].
    eexists. reflexivity.
Qed.

(** A returning [train_epoch]: the state it leaves is the one a pass of
    descent leaves, and the line it prints shows the sums of that pass. *)
Lemma train_epoch_returns ld order epoch s s' t :
  grad_shaped -> grad_fits s ->
  train_epoch ld order epoch s = (s', t, inr tt) ->
  let n := length (data s (dataset ld)) in
  exists total correct,
    descent ld (batch_sampler (batch_size ld) [] order) (set_mode s true) (0%Q, 0)
    = inr (s', (total, correct)) /\
    0 < n /\
    stdout t = [Train_line epoch (total / Qnat n) correct n (100 * Qnat correct / Qnat n)].
Proof.
  intros Hshape Hfits H n. unfold train_epoch, set_training, py_div, print in H.
  apply bind_returns in H as (s1 & t1 & u & t2 & H1 & H & ->).
  apply call_returns in H1 as [H1 ->]. inversion H1; subst s1; clear H1.
  cbv beta in H.
  apply bind_returns in H as (s2 & t3 & n' & t4 & Hn & H & ->).
  apply gets_returns in Hn as (-> & -> & ->).
  cbv beta in H. rewrite data_set_mode in H. fold n in H.
  apply bind_returns in H as (s3 & t5 & acc & t6 & Hloop & H & ->).
  pose proof (train_loop_quiet ld (batch_sampler (batch_size ld) [] order) (0%Q, 0)
                (set_mode s true)) as Hq.
  apply emitted_of_run in Hloop as Hrun. destruct Hrun as (Et & _ & _).
  unfold quiet in Hq. rewrite Et in Hq.
  apply (train_loop_returns _ _ _ _ _ _ _ Hshape (grad_fits_set_mode _ _ Hfits)) in Hloop.
  cbv beta in H.
  apply bind_returns in H as (s4 & t7 & loss & t8 & Hd1 & H & ->).
  apply call_returns in Hd1 as [Hd1 ->].
  cbv beta in H.
  apply bind_returns in H as (s5 & t9 & pct & t10 & Hd2 & H & ->).
  apply call_returns in Hd2 as [Hd2 ->].
  cbv beta in H.
  apply call_returns in H as [H ->].
  destruct (n =? 0) eqn:En; [discriminate|].
  apply Nat.eqb_neq in En.
  inversion Hd1; subst. inversion Hd2; subst. inversion H; subst.
  destruct acc as [total correct]. exists total, correct.
  split; [exact Hloop|]. split; [lia|].
  rewrite !stdout_app, Hq. reflexivity.
Qed.

(** The training loop is a sequence of such passes, each followed by the
    switch to eval mode. *)
Lemma training_loop_returns tl dl tos dos (epochs : list nat) s s' t :
  grad_shaped -> grad_fits s ->
  for_each epochs
           (fun epoch _ =>
              bind (train_epoch tl (tos epoch) epoch)
                   (fun _ => bind (eval_epoch dl (dos epoch) "Dev")
                                  (fun _ => print Dashes)))
           tt s = (s', t, inr tt) ->
  descents tl tos epochs s = inr s'.
Proof.
  intro Hshape. revert s t.
  induction epochs as [|epoch epochs IH]; intros s t Hfits H; cbn [for_each] in H.
  - apply ret_returns in H as (-> & _ & _). reflexivity.
  - apply bind_returns in H as (s1 & t1 & u & t2 & Hbody & Hrest & _).
    apply bind_returns in Hbody as (s2 & t3 & u2 & t4 & Htrain & Hbody & _).
    apply bind_returns in Hbody as (s3 & t5 & u3 & t6 & Heval & Hp & _).
    unfold print in Hp. apply call_returns in Hp as [Hp _]. inversion Hp; subst s3.
    destruct u2.
    apply (train_epoch_returns _ _ _ _ _ _ Hshape Hfits) in Htrain
      as (total & correct & Hd & _ & _).
    destruct u3. apply eval_epoch_returns in Heval as (-> & _).
    cbn [descents]. rewrite Hd. destruct u.
    apply (IH _ _ (grad_fits_set_mode _ _ (descent_fits _ _ _ _ _ _ Hshape
                                             (grad_fits_set_mode _ _ Hfits) Hd)) Hrest).
Qed.

Lemma descents_buffer ld orders (epochs : list nat) s s' :
  Qeq_bool momentum 0 = false ->
  (exists epoch rest, epochs = epoch :: rest /\ orders epoch <> [])
  \/ (exists buf, momentum_buffer s = Some buf) ->
  descents ld orders epochs s = inr s' ->
  exists buf, momentum_buffer s' = Some buf.
Proof.
  intro Hm. revert s.
  induction epochs as [|epoch epochs IH]; intros s Hor H; cbn [descents] in H.
  - inversion H; subst. destruct Hor as [(e & r & E & _) | Hbuf];
      [discriminate | exact Hbuf].
  - destruct (descent ld _ (set_mode s true) (0%Q, 0)) as [e | [s1 acc1]] eqn:Ed;
      [discriminate|].
    apply IH in H; [exact H|]. right.
    change (momentum_buffer (set_mode s1 false)) with (momentum_buffer s1).
    apply (descent_buffer _ _ _ _ _ _ Hm) in Ed; [exact Ed|].
    destruct Hor as [(e & r & E & Hne) | Hbuf].
    + inversion E; subst e r. left. intro Enil.
      apply batch_sampler_nil_inv in Enil as [Enil _]. contradiction.
    + right. exact Hbuf.
Qed.

(** *** The split *)

Lemma getitem_in_range (xs : list item) (i : Z) :
  (0 <= i < len xs)%Z ->
  exists x, nth_error xs (Z.to_nat i) = Some x /\ getitem xs i = inr x.
Proof.
  intros [H0 H1]. unfold getitem, len in *.
  destruct (Z.ltb_spec i 0) as [|_]; [lia|].
  destruct (Z.leb_spec 0 i) as [_|]; [|lia].
  destruct (Z.ltb_spec i (Z.of_nat (length xs))) as [_|]; [|lia].
  cbn [andb]. destruct (nth_error xs (Z.to_nat i)) as [x|] eqn:E.
  - exists x. auto.
  - apply nth_error_None in E. lia.
Qed.

Lemma comprehension_loop (xs : list item) (indices : list Z) (acc : list item) s :
  Forall (fun i => (0 <= i < len xs)%Z) indices ->
  exists t,
    for_each indices (fun i acc => bind (py_getitem xs i) (fun x => ret (acc ++ [x])))
             acc s
    = (s, t, inr (acc ++ picked xs (map Z.to_nat indices))).
Proof.
  revert acc. induction indices as [|i rest IH]; intros acc HF; cbn [for_each].
  - exists []. cbn. rewrite app_nil_r. reflexivity.
  - inversion HF as [|? ? Hi Hrest]; subst.
    destruct (getitem_in_range xs i Hi) as (x & Hx & Hg).
    destruct (IH (acc ++ [x]) Hrest) as [t Ht].
    eexists. eapply bind_run.
    + eapply bind_run.
      * unfold py_getitem. apply call_run. rewrite Hg. reflexivity.
      * reflexivity.
    + cbv beta. rewrite Ht. cbn [map picked flat_map]. rewrite Hx.
      rewrite <- app_assoc. reflexivity.
Qed.

Lemma range_to_nat_from (lo : Z) (a n : nat) :
  (0 <= lo)%Z ->
  map (fun k => Z.to_nat (lo + Z.of_nat k)) (seq a n) = seq (Z.to_nat lo + a) n.
Proof.
  intro Hlo. revert a. induction n as [|n IH]; intro a; [reflexivity|].
  cbn [seq map]. f_equal; [lia|].
  rewrite IH. f_equal. lia.
Qed.

Lemma range_to_nat (lo hi : Z) :
  (0 <= lo)%Z ->
  map Z.to_nat (range lo hi) = seq (Z.to_nat lo) (Z.to_nat (hi - lo)).
Proof.
  intro Hlo. unfold range. rewrite map_map, range_to_nat_from by exact Hlo.
  f_equal. lia.
Qed.

Lemma range_in_bounds (lo hi : Z) (xs : list item) :
  (0 <= lo)%Z -> (hi <= len xs)%Z ->
  Forall (fun i => (0 <= i < len xs)%Z) (range lo hi).
Proof.
  intros Hlo Hhi. unfold range. apply Forall_forall. intros i Hi.
  apply in_map_iff in Hi as (k & <- & Hk). apply in_seq in Hk. lia.
Qed.

Lemma comprehension_range (xs : list item) (lo hi : Z) s :
  (0 <= lo <= hi)%Z -> (hi <= len xs)%Z ->
  exists t,
    comprehension xs (range lo hi) s
    = (s, t, inr (firstn (Z.to_nat (hi - lo)) (skipn (Z.to_nat lo) xs))).
Proof.
  intros Hlo Hhi. unfold comprehension.
  destruct (comprehension_loop xs (range lo hi) [] s) as [t Ht].
  { apply range_in_bounds; lia. }
  exists t. rewrite Ht. cbn [app]. rewrite range_to_nat by lia.
  rewrite picked_seq_from; [reflexivity|]. unfold len in Hhi. lia.
Qed.







Lemma select_printed_kind (t : trace) :
  select printed_kind t = map kind_of (stdout t).
Proof.
  induction t as [|ev t IH]; [reflexivity|].
  change (select printed_kind (ev :: t))
    with (printed_kind (ev_op ev) ++ select printed_kind t).
  change (stdout (ev :: t)) with (printed (ev_op ev) ++ stdout t).
  rewrite map_app, <- IH. reflexivity.
Qed.

Lemma set_training_run (b : bool) s :
  final (set_training b) s = set_mode s b /\ outcome (set_training b) s = inr tt.
Proof. split; reflexivity. Qed.

Lemma eval_epoch_mode ld order name s :
  training (final (eval_epoch ld order name) s) = false.
Proof.
  unfold eval_epoch. rewrite final_bind.
  destruct (set_training_run false s) as [-> ->].
  lazymatch goal with
  | |- training (final ?c ?s0) = false =>
      assert (H : always same_mode c)
        by (unfold py_div, print; frame_steps; apply eval_batch_same_mode);
      exact (H s0)
  end.
Qed.

(** C8: whatever the model, the loader and the sampled order, and whether
    [eval_epoch] returns or raises, it leaves the parameters, their
    gradients, the optimizer's buffer and the three lists as they were,
    makes no [backward] and no [step] call, leaves the module in eval
    mode, and prints at most its one line of metrics. *)
Theorem eval_epoch_leaves_parameters ld order name s :
  final (eval_epoch ld order name) s = set_mode s false /\
  params (final (eval_epoch ld order name) s) = params s /\
  Forall (fun ev => is_step (ev_op ev) = false /\ is_backward (ev_op ev) = false)
         (emitted (eval_epoch ld order name) s) /\
  prefix (map kind_of (stdout (emitted (eval_epoch ld order name) s))) [K_eval name].
Proof.
  destruct (eval_epoch_evaluation_only ld order name s) as (Hp & Hg & Hm & Hno).
  destruct (eval_epoch_same_lists ld order name s) as (Htr & Hdv & Hte).
  pose proof (eval_epoch_mode ld order name s) as Hmode.
  split; [|split; [exact Hp | split; [exact Hno|]]].
  - destruct (final (eval_epoch ld order name) s) as [tr dv te p g m b].
    unfold set_mode. cbn [train dev test params grads training momentum_buffer] in *.
    congruence.
  - rewrite <- select_printed_kind.
    apply (proj1 (eval_epoch_emits_kinds ld order name s)).
Qed.

(** C9, as the code has it: when [eval_epoch] returns after a pass in
    which the loader visits every index once, the count it prints is the
    number of samples whose label is the index of the maximum logit in
    the row the model returned for them, in eval mode and at the current
    parameters, in the mini-batch they were in: each sample of the dataset
    is counted once, with its own label.  For a model that computes each
    row from its own image alone, it is the number of samples of the
    dataset whose predicted class is their label, a figure in which neither
    the batch size nor the sampled order appears. *)
Theorem eval_epoch_correct_count ld order name s s' t :
  Permutation order (seq 0 (length (data s (dataset ld)))) ->
  eval_epoch ld order name s = (s', t, inr tt) ->
  let xs := data s (dataset ld) in
  let samples := all_scored (params s) false xs (batch_sampler (batch_size ld) [] order) in
  (exists loss accuracy,
     stdout t = [Eval_line name loss (length (filter hit samples)) (length xs) accuracy]) /\
  Permutation (map snd samples) (map it_label xs) /\
  (forall logits, rowwise (params s) false logits ->
     length (filter hit samples) = length (filter (correctly_classified logits) xs)).
Proof.
  intros Hperm H xs samples.
  apply eval_epoch_returns in H as (_ & _ & Hans & Hout).
  fold xs in Hans, Hout. fold samples in Hout.
  split; [eexists _, _; exact Hout|]. split.
  - apply Permutation_trans with (map it_label (picked xs order)).
    + unfold samples. rewrite (all_scored_labels _ _ _ _ Hans), concat_batch_sampler.
      reflexivity.
    + apply Permutation_map, picked_permutation, Hperm.
  - intros logits Hrow. unfold samples.
    rewrite (all_scored_rowwise _ _ _ _ _ Hrow Hans), concat_batch_sampler. cbn [app].
    rewrite filter_map_length. unfold correctly_classified.
    apply filter_length_permutation, picked_permutation, Hperm.
Qed.

Lemma select_next_indices (t : trace) : select next_indices t = next_batches t.
Proof. reflexivity. Qed.

(** C2: one call to [train_epoch] is one pass over the training data.
    Whatever numbers the generator gives the loader's sampler, the
    mini-batches partition the dataset: every element is in one of them,
    once.  The library calls of the pass are [model.train()] followed, for
    each mini-batch in turn, by the batch's fetch from the loader's
    dataset, [zero_grad], the forward pass, [cross_entropy], [backward] and
    one [step]: all of them when [train_epoch] returns, a prefix of them
    when a call raises.  When it returns, the model and the optimizer are
    as one pass of descent leaves them: for each mini-batch in turn, one
    SGD update along the gradient of that batch's loss alone, taken at the
    parameters the previous update left; and the line printed shows the
    sums of that pass. *)
Theorem train_epoch_one_pass ld gen epoch s :
  let xs := data s (dataset ld) in
  let order := random_sampler gen (length xs) in
  let batches := batch_sampler (batch_size ld) [] order in
  let run := train_epoch ld order epoch in
  Permutation (concat batches) (seq 0 (length xs)) /\
  NoDup (concat batches) /\
  Permutation (picked xs (concat batches)) xs /\
  prefix (select library_call (emitted run s))
         (Op_train_mode :: flat_map (batch_ops ld) batches) /\
  (forall s' t,
     run s = (s', t, inr tt) ->
     select library_call t = Op_train_mode :: flat_map (batch_ops ld) batches /\
     (grad_shaped -> grad_fits s ->
      exists total correct,
        descent ld batches (set_mode s true) (0%Q, 0) = inr (s', (total, correct)) /\
        stdout t = [Train_line epoch (total / Qnat (length xs)) correct (length xs)
                      (100 * Qnat correct / Qnat (length xs))])).
Proof.
  intros xs order batches run.
  pose proof (random_sampler_permutation gen (length xs)) as Hperm. fold order in Hperm.
  unfold batches. rewrite concat_batch_sampler. cbn [app].
  split; [exact Hperm|]. split.
  { apply (Permutation_NoDup (Permutation_sym Hperm)), seq_NoDup. }
  split; [apply picked_permutation, Hperm|].
  destruct (train_epoch_emits_calls ld order epoch s) as [Hpre Hfull].
  split; [exact Hpre|].
  intros s' t Hrun. apply emitted_of_run in Hrun as Hparts.
  destruct Hparts as (Et & _ & Eo). fold run in Hfull. rewrite Et in Hfull.
  split; [apply (Hfull tt Eo)|].
  intros Hshape Hfits.
  destruct (train_epoch_returns _ _ _ _ _ _ Hshape Hfits Hrun) as (total & correct & Hd & _ & Hout).
  exists total, correct. split; assumption.
Qed.

(** C7, as the code has it: with a batch size of at least one, every
    mini-batch [train_epoch] processes holds between one and [batch_size]
    elements; in a pass that returns, all of them hold exactly
    [batch_size], but for the last one when [batch_size] does not divide
    the number of sampled indices: it holds the remainder. *)
Theorem train_epoch_batch_sizes ld order epoch s :
  1 <= batch_size ld ->
  let fetched := next_batches (emitted (train_epoch ld order epoch) s) in
  Forall (fun b => 1 <= length b <= batch_size ld) fetched /\
  (outcome (train_epoch ld order epoch) s = inr tt ->
   exists full rest,
     fetched = full ++ rest /\
     Forall (fun b => length b = batch_size ld) full /\
     length full = length order / batch_size ld /\
     ((length order mod batch_size ld = 0 /\ rest = []) \/
      (exists b, rest = [b] /\ length b = length order mod batch_size ld /\
                 0 < length b < batch_size ld))).
Proof.
  intros Hbs fetched. unfold fetched. rewrite <- select_next_indices.
  destruct (train_epoch_emits_next ld order epoch s) as [Hpre Hfull].
  destruct (batch_sampler_sizes (batch_size ld) order [] Hbs) as
    (full & rest & E & Hf & Hl & Hr); [cbn; lia|].
  cbn [length Nat.add] in Hl, Hr.
  split.
  - apply (prefix_Forall _ _ _ Hpre). rewrite E. apply Forall_app. split.
    + eapply Forall_impl; [|exact Hf]. cbn beta. intros b Hb. lia.
    + destruct Hr as [[_ ->] | (b & -> & _ & Hb)]; repeat constructor; lia.
  - intro Hret. rewrite (Hfull tt Hret). exists full, rest. auto.
Qed.

(** C5: no cell catches, retries or rewraps.  Whatever the state, when
    the data-loading cell, [train_epoch], [eval_epoch] or the training loop
    raises [e], then [e] is the exception of the last call it made and no
    earlier call raised; when it returns, no call raised. *)
Theorem errors_propagate_unchanged :
  propagates load_cell /\
  (forall ld order epoch, propagates (train_epoch ld order epoch)) /\
  (forall ld order name, propagates (eval_epoch ld order name)) /\
  (forall epochs tl dl tos dos, propagates (training_loop epochs tl dl tos dos)).
Proof.
  split; [apply propagates_load_cell|].
  split; [apply propagates_train_epoch|].
  split; [apply propagates_eval_epoch | apply propagates_training_loop].
Qed.

Lemma length_flat_map_three {X Y : Type} (f g h : X -> Y) (xs : list X) :
  length (flat_map (fun x => [f x; g x; h x]) xs) = 3 * length xs.
Proof.
  induction xs as [|x xs IH]; [reflexivity|].
  cbn [flat_map length app]. rewrite IH. lia.
Qed.

(** C6: the training loop runs [train_epoch] on the train loader, then
    [eval_epoch] on the dev loader, then prints the dashes, once for each
    epoch from 1 to [epochs]: all of these lines and calls when it returns,
    a prefix of them when a call raises.  A pass of [train_epoch] or of
    [eval_epoch] fetches at most as many mini-batches as the sampler gave
    indices. *)
Theorem training_loop_iterations epochs tl dl tos dos s :
  let run := training_loop epochs tl dl tos dos in
  let lines := flat_map (fun epoch => [K_train epoch; K_eval "Dev"; K_dashes])
                        (seq 1 epochs) in
  let calls :=
    flat_map (fun epoch =>
                (Op_train_mode ::
                   flat_map (batch_ops tl) (batch_sampler (batch_size tl) [] (tos epoch)))
                ++ Op_eval_mode ::
                   flat_map (eval_batch_ops dl) (batch_sampler (batch_size dl) [] (dos epoch)))
             (seq 1 epochs) in
  prefix (map kind_of (stdout (emitted run s))) lines /\
  prefix (select library_call (emitted run s)) calls /\
  (outcome run s = inr tt ->
   map kind_of (stdout (emitted run s)) = lines /\
   length (stdout (emitted run s)) = 3 * epochs /\
   select library_call (emitted run s) = calls) /\
  (forall ld order epoch s0,
     length (next_batches (emitted (train_epoch ld order epoch) s0)) <= length order) /\
  (forall ld order name s0,
     length (next_batches (emitted (eval_epoch ld order name) s0)) <= length order).
Proof.
  intros run lines calls. subst run lines calls.
  destruct (training_loop_emits_kinds epochs tl dl tos dos s) as [Pk Fk].
  destruct (training_loop_emits_calls epochs tl dl tos dos s) as [Pc Fc].
  rewrite select_printed_kind in Pk, Fk.
  split; [exact Pk|]. split; [exact Pc|]. split; [|split].
  - intro Hret. split; [apply (Fk tt Hret)|]. split; [|apply (Fc tt Hret)].
    rewrite <- (length_map kind_of), (Fk tt Hret).
    rewrite (length_flat_map_three K_train (fun _ => K_eval "Dev") (fun _ => K_dashes)).
    rewrite length_seq. reflexivity.
  - intros ld order epoch s0. rewrite <- select_next_indices.
    destruct (train_epoch_emits_next ld order epoch s0) as [Hpre _].
    apply prefix_length in Hpre.
    pose proof (batch_sampler_count (batch_size ld) order []) as Hc.
    cbn [length Nat.min] in Hc. lia.
  - intros ld order name s0. rewrite <- select_next_indices.
    destruct (eval_epoch_emits_next ld order name s0) as [Hpre _].
    apply prefix_length in Hpre.
    pose proof (batch_sampler_count (batch_size ld) order []) as Hc.
    cbn [length Nat.min] in Hc. lia.
Qed.

(** C4, as the code has it: the training loop never modifies the three
    lists, whether it returns or raises; the parameters and the optimizer's
    buffer are left as they were by a run in which no [optimizer.step()]
    was called; and when the loop returns, the model and the optimizer are
    what the passes of descent make of them one epoch after the other, each
    epoch starting from the parameters, the gradient and the momentum
    buffer the previous one left: with momentum, the optimizer holds a
    buffer from the first mini-batch on. *)
Theorem training_loop_state epochs tl dl tos dos s :
  let run := training_loop epochs tl dl tos dos in
  let s' := final run s in
  (train s' = train s /\ dev s' = dev s /\ test s' = test s) /\
  (Forall (fun ev => is_step (ev_op ev) = false) (emitted run s) ->
   params s' = params s /\ momentum_buffer s' = momentum_buffer s) /\
  (outcome run s = inr tt -> grad_shaped -> grad_fits s ->
   descents tl tos (seq 1 epochs) s = inr s' /\
   (Qeq_bool momentum 0 = false -> 0 < epochs -> tos 1 <> [] ->
    exists buf, momentum_buffer s' = Some buf)).
Proof.
  intros run s'. split; [|split].
  - apply (training_loop_same_lists epochs tl dl tos dos s).
  - apply (training_loop_only_step_updates epochs tl dl tos dos s).
  - intros Hret Hshape Hfits.
    pose proof (run_eta run s) as Hrun. rewrite Hret in Hrun. fold s' in Hrun.
    unfold run in Hrun. unfold training_loop in Hrun at 1.
    apply (training_loop_returns _ _ _ _ _ _ _ _ Hshape Hfits) in Hrun.
    split; [exact Hrun|].
    intros Hm Hep Hne. apply (descents_buffer _ _ _ _ _ Hm) in Hrun; [exact Hrun|].
    left. destruct epochs as [|n]; [lia|]. cbn [seq]. eexists _, _. split; [reflexivity|].
    exact Hne.
Qed.


(** *** Further properties of the cells *)

(** What a returning [eval_epoch] prints as the loss: the sum, over the
    mini-batches the sampler formed, of each batch's mean loss, divided by
    the number of samples of the dataset. *)
Theorem eval_epoch_printed_loss ld order name s s' t :
  eval_epoch ld order name s = (s', t, inr tt) ->
  exists correct accuracy,
    stdout t =
    [Eval_line name
       (sum_of_batch_means (params s) false (data s (dataset ld))
                           (batch_sampler (batch_size ld) [] order) 0
        / Qnat (length (data s (dataset ld))))
       correct (length (data s (dataset ld))) accuracy].
Proof.
  intro H. apply eval_epoch_returns in H as (_ & _ & _ & Hout).
  eexists _, _. exact Hout.
Qed.

Lemma all_scored_length (p : list Q) (mode : bool) (xs : list item)
  (batches : list (list nat)) :
  Forall (answered p mode xs) batches ->
  length (all_scored p mode xs batches) = length (picked xs (concat batches)).
Proof.
  intro H. rewrite <- (length_map snd), (all_scored_labels _ _ _ _ H).
  apply length_map.
Qed.

(** The figures of a returning [eval_epoch] over a permutation of the
    indices are consistent: the count of correct predictions is at most
    the number of samples, which is positive, and the printed accuracy is
    that count as a percentage. *)
Theorem eval_epoch_accuracy ld order name s s' t :
  Permutation order (seq 0 (length (data s (dataset ld)))) ->
  eval_epoch ld order name s = (s', t, inr tt) ->
  exists loss correct,
    stdout t = [Eval_line name loss correct (length (data s (dataset ld)))
                  (100 * Qnat correct / Qnat (length (data s (dataset ld))))] /\
    correct <= length (data s (dataset ld)) /\
    0 < length (data s (dataset ld)).
Proof.
  intros Hperm H. apply eval_epoch_returns in H as (_ & Hpos & Hans & Hout).
  eexists _, _. split; [exact Hout|]. split; [|exact Hpos].
  assert (Hl : length (all_scored (params s) false (data s (dataset ld))
                                  (batch_sampler (batch_size ld) [] order))
               = length (data s (dataset ld))).
  { rewrite (all_scored_length _ _ _ _ Hans), concat_batch_sampler. cbn [app].
    apply Permutation_length, picked_permutation, Hperm. }
  rewrite <- Hl. apply filter_length_le.
Qed.








Lemma train_epoch_mode ld order epoch s :
  training (final (train_epoch ld order epoch) s) = true.
Proof.
  unfold train_epoch. rewrite final_bind.
  destruct (set_training_run true s) as [-> ->].
  lazymatch goal with
  | |- training (final ?c ?s0) = true =>
      assert (H : always same_mode c);
      [ unfold py_div, print; frame_steps;
        unfold train_batch, next_batch, zero_grad, forward, cross_entropy,
          backward, step; frame_steps
      | exact (H s0) ]
  end.
Qed.

Lemma for_each_last {X S : Type} (body : X -> S -> M S) (P : state -> Prop) :
  (forall x acc s s' t acc', body x acc s = (s', t, inr acc') -> P s') ->
  forall xs acc s s' t acc',
    xs <> [] -> for_each xs body acc s = (s', t, inr acc') -> P s'.
Proof.
  intros Hb xs. induction xs as [|x xs IH]; intros acc s s' t acc' Hne H;
    [congruence|].
  cbn [for_each] in H.
  apply bind_returns in H as (s1 & t1 & acc1 & t2 & H1 & Hrest & ->).
  destruct xs as [|y xs'].
  - cbn [for_each] in Hrest. apply ret_returns in Hrest as (-> & _ & _).
    eapply Hb; eassumption.
  - eapply IH; [discriminate | eassumption].
Qed.

(** The mode each function leaves the module in: [train_epoch] train
    mode and [eval_epoch] eval mode, whether they return or raise; the
    training loop, when it returns after at least one epoch, eval mode. *)
Theorem modes_left ld order epoch name epochs tl dl tos dos s :
  training (final (train_epoch ld order epoch) s) = true /\
  training (final (eval_epoch ld order name) s) = false /\
  (0 < epochs ->
   outcome (training_loop epochs tl dl tos dos) s = inr tt ->
   training (final (training_loop epochs tl dl tos dos) s) = false).
Proof.
  split; [apply train_epoch_mode|]. split; [apply eval_epoch_mode|].
  intros Hep Hret.
  pose proof (run_eta (training_loop epochs tl dl tos dos) s) as Hrun.
  rewrite Hret in Hrun. unfold training_loop in Hrun at 1.
  apply (for_each_last _ (fun s' => training s' = false)) in Hrun; [exact Hrun| |].
  - intros e u s0 s1 t1 u1 Hbody.
    apply bind_returns in Hbody as (s2 & t2 & u2 & t3 & _ & Hbody & _).
    apply bind_returns in Hbody as (s3 & t4 & u3 & t5 & He & Hp & _).
    unfold print in Hp. apply call_returns in Hp as [Hp _]. inversion Hp; subst.
    apply emitted_of_run in He as (_ & <- & _). apply eval_epoch_mode.
  - destruct epochs; [lia | discriminate].
Qed.

Lemma for_each_app {X S : Type} (body : X -> S -> M S) (xs ys : list X) acc s s1 t1 acc1 :
  for_each xs body acc s = (s1, t1, inr acc1) ->
  for_each (xs ++ ys) body acc s
  = (final (for_each ys body acc1) s1,
     t1 ++ emitted (for_each ys body acc1) s1,
     outcome (for_each ys body acc1) s1).
Proof.
  revert acc s t1. induction xs as [|x xs IH]; intros acc s t1 H.
  - cbn [for_each] in H. apply ret_returns in H as (-> & -> & ->).
    cbn [app]. apply run_eta.
  - cbn [for_each app] in *.
    apply bind_returns in H as (s2 & t2 & acc2 & t3 & Hb & Hrest & ->).
    rewrite <- app_assoc. eapply bind_run; [exact Hb|].
    apply (IH _ _ _ Hrest).
Qed.

Lemma range_split (lo mid hi : Z) :
  (lo <= mid <= hi)%Z -> range lo hi = range lo mid ++ range mid hi.
Proof.
  intro H. unfold range.
  replace (Z.to_nat (hi - lo)) with (Z.to_nat (mid - lo) + Z.to_nat (hi - mid)) by lia.
  rewrite seq_app, map_app. f_equal.
  generalize (Z.to_nat (hi - mid)) as n. intro n.
  generalize 0 as c. induction n as [|n IH]; intro c; [reflexivity|].
  cbn [seq map]. f_equal; [lia|]. apply (IH (S c)).
Qed.

Lemma getitem_at_len (xs : list item) : getitem xs (len xs) = inl IndexError.
Proof.
  unfold getitem, len.
  destruct (Z.ltb_spec (Z.of_nat (length xs)) 0) as [|_]; [lia|].
  destruct (Z.leb_spec 0 (Z.of_nat (length xs))) as [_|]; [|lia].
  rewrite Z.ltb_irrefl. reflexivity.
Qed.

(** [[xs[i] for i in range(lo, hi)]] is the slice [xs[lo:hi]] when the
    range lies within the list, and raises [IndexError] when it reaches
    past its end. *)
Theorem comprehension_slice (xs : list item) (lo hi : Z) s :
  (0 <= lo <= hi)%Z ->
  ((hi <= len xs)%Z ->
   exists t, comprehension xs (range lo hi) s
             = (s, t, inr (firstn (Z.to_nat (hi - lo)) (skipn (Z.to_nat lo) xs)))) /\
  ((lo <= len xs < hi)%Z ->
   outcome (comprehension xs (range lo hi)) s = inl IndexError).
Proof.
  intro Hlo. split.
  - intro Hhi. apply comprehension_range; assumption.
  - intros [Hl Hh]. unfold comprehension.
    rewrite (range_split lo (len xs) hi) by lia.
    destruct (comprehension_loop xs (range lo (len xs)) [] s) as [t1 H1].
    { apply range_in_bounds; lia. }
    unfold outcome at 1. rewrite (for_each_app _ _ _ _ _ _ _ _ H1). cbn [snd].
    generalize ([] ++ picked xs (map Z.to_nat (range lo (len xs)))) as acc0.
    intro acc0. unfold range.
    destruct (Z.to_nat (hi - len xs)) as [|n] eqn:En; [lia|].
    cbn [seq map for_each].
    replace (len xs + Z.of_nat 0)%Z with (len xs) by lia.
    rewrite outcome_bind, outcome_bind.
    unfold py_getitem at 1. unfold outcome at 1, call. cbn [snd].
    rewrite getitem_at_len. reflexivity.
Qed.


End Notebook.

(** *** The settings cell *)

(** [optimizer = optim.SGD(model.parameters(), lr=lr, momentum=momentum)]:
    a new optimizer holds no buffer. *)
Definition new_optimizer {Image : Type} (s : state Image) : state Image :=
  {| train := train Image s; dev := dev Image s; test := test Image s;
     params := params Image s; grads := grads Image s;
     training := training Image s; momentum_buffer := None |}.

(** *** A small instance to run the cells on

    One-pixel images, two classes, one weight [w]: the logits of an image
    [x] are [0] and [w * x]; every sample's loss is [1] and the gradient of
    a batch loss is [1]; [zero_grad] zeroes the gradients. *)
Module Toy.

Definition train_file : list (Q * nat) :=
  [(1%Q, 1); ((-1)%Q, 0); (2%Q, 1); ((-2)%Q, 0); (3%Q, 0)].

Definition test_file : list (Q * nat) := [(5%Q, 1)].

Definition files (b : bool) : result (list (Q * nat)) :=
  if b then inr train_file else inr test_file.

Definition normalize_image (x : Q) : Q := x.

Definition logits (p : list Q) (mode : bool) (x : Q) : result (list Q) :=
  inr [0; hd 0 p * x]%Q.

Definition net (p : list Q) (mode : bool) (images : list Q) : result (list (list Q)) :=
  traverse (logits p mode) images.

Definition sample_loss (row : list Q) (y : nat) : result Q := inr 1%Q.

Definition loss_grad (p : list Q) (mode : bool) (images : list Q) (target : list nat)
  : result (list Q) :=
  inr (map (fun _ => 1%Q) p).

Definition blank : state Q :=
  {| train := []; dev := []; test := []; params := [1%Q]; grads := None;
     training := true; momentum_buffer := None |}.

Definition load_cell : M Q unit := Lab.load_cell Q Q normalize_image files.

(** The state after the data-loading cell: four training samples, one
    dev sample, one test sample. *)
Definition loaded : state Q := final Q load_cell blank.

Definition train_epoch : DataLoader -> list nat -> nat -> M Q unit :=
  Lab.train_epoch Q net sample_loss loss_grad Tutorial.lr Tutorial.momentum false.

Definition eval_epoch : DataLoader -> list nat -> string -> M Q unit :=
  Lab.eval_epoch Q net sample_loss.

Definition training_loop : nat -> DataLoader -> DataLoader ->
                           (nat -> list nat) -> (nat -> list nat) -> M Q unit :=
  Lab.training_loop Q net sample_loss loss_grad Tutorial.lr Tutorial.momentum false.

Definition pairs : DataLoader := Build_DataLoader P_train 2.
Definition triples : DataLoader := Build_DataLoader P_train 3.
Definition dev_pairs : DataLoader := Build_DataLoader P_dev 2.

(** A generator that always returns [0]: the sampler's order is [0, 1,
    ...]. *)
Definition zeros (i : nat) : nat := 0.

End Toy.

(** A model whose output depends on the mini-batch, as a batch
    normalisation without running statistics does: the logits of an image
    [x] are [0] and [x] minus the mean of the images of its batch. *)
Module Centred.

Definition net (p : list Q) (mode : bool) (images : list Q) : result (list (list Q)) :=
  let mean := Qmean images in
  inr (map (fun x => [0; x - mean]%Q) images).

Definition eval_epoch : DataLoader -> list nat -> string -> M Q unit :=
  Lab.eval_epoch Q net Toy.sample_loss.

End Centred.

Lemma toy_grad_shaped : grad_shaped Q Toy.loss_grad.
Proof.
  intros p mode images target g H. unfold Toy.loss_grad in H. inversion H.
  apply length_map.
Qed.

Lemma toy_grad_fits : grad_fits Q Toy.loaded.
Proof. intros g0 H. vm_compute in H. discriminate. Qed.

Lemma toy_rowwise (p : list Q) (mode : bool) : rowwise Q Toy.net p mode (Toy.logits p mode).
Proof. intro images. reflexivity. Qed.

Lemma new_optimizer_keeps {Image : Type} (s : state Image) :
  params Image (new_optimizer s) = params Image s /\
  grads Image (new_optimizer s) = grads Image s /\
  training Image (new_optimizer s) = training Image s /\
  train Image (new_optimizer s) = train Image s /\
  dev Image (new_optimizer s) = dev Image s /\
  test Image (new_optimizer s) = test Image s.
Proof. repeat split. Qed.

(** *** The theorems at the small instance *)


Lemma train_epoch_one_pass_witness :
  exists total correct,
    descent Q Toy.net Toy.sample_loss Toy.loss_grad Tutorial.lr Tutorial.momentum
            Toy.pairs [[0; 1]; [2; 3]] (set_mode Q Toy.loaded true) (0%Q, 0)
    = inr (final Q (Toy.train_epoch Toy.pairs [0; 1; 2; 3] 1) Toy.loaded,
           (total, correct)).
Proof.
  destruct (train_epoch_one_pass Q Toy.net Toy.sample_loss Toy.loss_grad
              Tutorial.lr Tutorial.momentum false Toy.pairs Toy.zeros 1 Toy.loaded)
    as (_ & _ & _ & _ & H).
  destruct (H (final Q (Toy.train_epoch Toy.pairs [0; 1; 2; 3] 1) Toy.loaded)
              (emitted Q (Toy.train_epoch Toy.pairs [0; 1; 2; 3] 1) Toy.loaded))
    as [_ H2]; [vm_compute; reflexivity|].
  destruct (H2 toy_grad_shaped toy_grad_fits) as (total & correct & Hd & _).
  exists total, correct. exact Hd.
Defined.

Lemma train_epoch_batch_sizes_witness :
  Forall (fun b => 1 <= length b <= 3)
         (next_batches (emitted Q (Toy.train_epoch Toy.triples [0; 1; 2; 3] 1) Toy.loaded)).
Proof.
  apply (train_epoch_batch_sizes Q Toy.net Toy.sample_loss Toy.loss_grad
           Tutorial.lr Tutorial.momentum false Toy.triples [0; 1; 2; 3] 1 Toy.loaded).
  vm_compute. lia.
Defined.

Lemma eval_epoch_correct_count_witness :
  (exists loss accuracy,
     stdout (emitted Q (Toy.eval_epoch Toy.pairs [3; 2; 1; 0] "Dev") Toy.loaded)
     = [Eval_line "Dev" loss 4 4 accuracy]) /\
  length (filter (correctly_classified Q (Toy.logits [1%Q] false)) (train Q Toy.loaded)) = 4.
Proof.
  destruct (eval_epoch_correct_count Q Toy.net Toy.sample_loss Toy.pairs [3; 2; 1; 0] "Dev"
              Toy.loaded
              (final Q (Toy.eval_epoch Toy.pairs [3; 2; 1; 0] "Dev") Toy.loaded)
              (emitted Q (Toy.eval_epoch Toy.pairs [3; 2; 1; 0] "Dev") Toy.loaded))
    as (Hline & _ & Hrow).
  - vm_compute. apply Permutation_sym, (Permutation_rev [0; 1; 2; 3]).
  - vm_compute. reflexivity.
  - split.
    + destruct Hline as (loss & accuracy & Hline). exists loss, accuracy.
      rewrite Hline. vm_compute. reflexivity.
    + etransitivity;
        [symmetry; exact (Hrow (Toy.logits [1%Q] false) (toy_rowwise [1%Q] false))|].
      vm_compute. reflexivity.
Defined.

Lemma training_loop_iterations_witness :
  length (stdout (emitted Q (Toy.training_loop Tutorial.epochs Toy.pairs Toy.dev_pairs
                               (fun _ => [0; 1; 2; 3]) (fun _ => [0]))
                            Toy.loaded)) = 30.
Proof.
  apply (training_loop_iterations Q Toy.net Toy.sample_loss Toy.loss_grad
           Tutorial.lr Tutorial.momentum false Tutorial.epochs Toy.pairs Toy.dev_pairs
           (fun _ => [0; 1; 2; 3]) (fun _ => [0]) Toy.loaded).
  vm_compute. reflexivity.
Defined.

Lemma training_loop_state_witness :
  descents Q Toy.net Toy.sample_loss Toy.loss_grad Tutorial.lr Tutorial.momentum
           Toy.pairs (fun _ => [0; 1; 2; 3]) [1; 2] Toy.loaded
  = inr (final Q (Toy.training_loop 2 Toy.pairs Toy.dev_pairs
                    (fun _ => [0; 1; 2; 3]) (fun _ => [0])) Toy.loaded) /\
  exists buf,
    momentum_buffer Q (final Q (Toy.training_loop 2 Toy.pairs Toy.dev_pairs
                                  (fun _ => [0; 1; 2; 3]) (fun _ => [0])) Toy.loaded)
    = Some buf.
Proof.
  destruct (training_loop_state Q Toy.net Toy.sample_loss Toy.loss_grad
              Tutorial.lr Tutorial.momentum false 2 Toy.pairs Toy.dev_pairs
              (fun _ => [0; 1; 2; 3]) (fun _ => [0]) Toy.loaded) as (_ & _ & H).
  destruct H as [Hd Hbuf];
    [vm_compute; reflexivity | exact toy_grad_shaped | exact toy_grad_fits |].
  split; [exact Hd|].
  apply Hbuf; [reflexivity | lia | discriminate].
Defined.

(** *** The further properties at the small instance *)

Lemma eval_epoch_printed_loss_witness :
  exists correct accuracy,
    stdout (emitted Q (Toy.eval_epoch Toy.pairs [0; 1; 2; 3] "Dev") Toy.loaded)
    = [Eval_line "Dev"
         (sum_of_batch_means Q Toy.net Toy.sample_loss (params Q Toy.loaded) false
            (data Q Toy.loaded (dataset Toy.pairs))
            (batch_sampler (batch_size Toy.pairs) [] [0; 1; 2; 3]) 0
          / Qnat (length (data Q Toy.loaded (dataset Toy.pairs))))
         correct (length (data Q Toy.loaded (dataset Toy.pairs))) accuracy].
Proof.
  apply (eval_epoch_printed_loss Q Toy.net Toy.sample_loss Toy.pairs [0; 1; 2; 3] "Dev"
           Toy.loaded
           (final Q (Toy.eval_epoch Toy.pairs [0; 1; 2; 3] "Dev") Toy.loaded)).
  vm_compute. reflexivity.
Defined.

Lemma eval_epoch_accuracy_witness :
  exists loss correct,
    stdout (emitted Q (Toy.eval_epoch Toy.pairs [0; 1; 2; 3] "Dev") Toy.loaded)
    = [Eval_line "Dev" loss correct (length (data Q Toy.loaded (dataset Toy.pairs)))
         (100 * Qnat correct / Qnat (length (data Q Toy.loaded (dataset Toy.pairs))))] /\
    correct <= length (data Q Toy.loaded (dataset Toy.pairs)) /\
    0 < length (data Q Toy.loaded (dataset Toy.pairs)).
Proof.
  apply (eval_epoch_accuracy Q Toy.net Toy.sample_loss Toy.pairs [0; 1; 2; 3] "Dev"
           Toy.loaded
           (final Q (Toy.eval_epoch Toy.pairs [0; 1; 2; 3] "Dev") Toy.loaded)).
  - vm_compute. apply Permutation_refl.
  - vm_compute. reflexivity.
Defined.


Lemma modes_left_witness :
  training Q (final Q (Toy.training_loop 2 Toy.pairs Toy.dev_pairs
                         (fun _ => [0; 1; 2; 3]) (fun _ => [0])) Toy.loaded) = false.
Proof.
  apply (modes_left Q Toy.net Toy.sample_loss Toy.loss_grad Tutorial.lr Tutorial.momentum
           false Toy.pairs [] 1 "Dev" 2 Toy.pairs Toy.dev_pairs
           (fun _ => [0; 1; 2; 3]) (fun _ => [0]) Toy.loaded).
  - lia.
  - vm_compute. reflexivity.
Defined.

Lemma comprehension_slice_witness :
  (exists t,
     comprehension Q (train Q Toy.loaded) (range 1 3) Toy.loaded
     = (Toy.loaded, t,
        inr (firstn (Z.to_nat (3 - 1)) (skipn (Z.to_nat 1) (train Q Toy.loaded))))) /\
  outcome Q (comprehension Q (train Q Toy.loaded) (range 1 9)) Toy.loaded = inl IndexError.
Proof.
  split.
  - apply (comprehension_slice Q (train Q Toy.loaded) 1 3 Toy.loaded); [lia|].
    vm_compute. discriminate.
  - apply (comprehension_slice Q (train Q Toy.loaded) 1 9 Toy.loaded); [lia|].
    vm_compute. split; [discriminate | reflexivity].
Defined.



(** *** Where the claims and the code part *)

(** C3 at a failing input: four samples whose losses are all [1], in two
    mini-batches of two.  Both [eval_epoch] and [train_epoch] print the
    loss [1/2], the sum of the two batch means divided by the four
    samples, while the samples' losses sum to [4] and average [1]. *)
Theorem printed_loss_two_batches :
  exists loss accuracy loss' accuracy',
    stdout (emitted Q (Toy.eval_epoch Toy.pairs [0; 1; 2; 3] "Dev") Toy.loaded)
    = [Eval_line "Dev" loss 4 4 accuracy] /\
    stdout (emitted Q (Toy.train_epoch Toy.pairs [0; 1; 2; 3] 1) Toy.loaded)
    = [Train_line 1 loss' 4 4 accuracy'] /\
    (loss == 1 # 2)%Q /\ (loss' == 1 # 2)%Q /\
    (Qsum (map (loss_of Q Toy.sample_loss (Toy.logits [1%Q] false)) (train Q Toy.loaded))
       / Qnat 4 == 1)%Q.
Proof.
  eexists _, _, _, _.
  split; [vm_compute; reflexivity|].
  split; [vm_compute; reflexivity|].
  repeat split; vm_compute; reflexivity.
Qed.

(** C7 fails as stated: four samples in mini-batches of three leave a
    last mini-batch of one. *)
Lemma train_epoch_short_batch :
  outcome Q (Toy.train_epoch Toy.triples [0; 1; 2; 3] 1) Toy.loaded = inr tt /\
  exists b,
    In b (next_batches (emitted Q (Toy.train_epoch Toy.triples [0; 1; 2; 3] 1) Toy.loaded))
    /\ length b <> batch_size Toy.triples.
Proof.
  split; [vm_compute; reflexivity|].
  exists [3]. split; [vm_compute; auto | vm_compute; discriminate].
Qed.

(** C4 fails as stated: after a first epoch, a second epoch run with the
    optimizer that was carried over and one run with a new optimizer start
    from the same model and the same lists, and end with different
    parameters. *)
Lemma model_alone_is_not_the_carried_state :
  let s1 := final Q (Toy.train_epoch Toy.pairs [0; 1; 2; 3] 1) Toy.loaded in
  let s1' := new_optimizer s1 in
  let p2 := params Q (final Q (Toy.train_epoch Toy.pairs [0; 1; 2; 3] 2) s1) in
  let p2' := params Q (final Q (Toy.train_epoch Toy.pairs [0; 1; 2; 3] 2) s1') in
  (params Q s1' = params Q s1 /\ grads Q s1' = grads Q s1 /\
   training Q s1' = training Q s1 /\ train Q s1' = train Q s1 /\
   dev Q s1' = dev Q s1 /\ test Q s1' = test Q s1) /\
  ~ (hd 0 p2 == hd 0 p2')%Q.
Proof.
  intros s1 s1' p2 p2'. split; [apply new_optimizer_keeps|].
  vm_compute. discriminate.
Qed.

(** C9 fails as stated: the same model, in eval mode, on the same four
    samples in mini-batches of two, is right about all four when the
    loader's order is [0, 1, 2, 3] and about two of them when it is
    [0, 2, 1, 3]. *)
Lemma shuffled_count_differs :
  Permutation [0; 1; 2; 3] (seq 0 (length (train Q Toy.loaded))) /\
  Permutation [0; 2; 1; 3] (seq 0 (length (train Q Toy.loaded))) /\
  exists loss accuracy loss' accuracy',
    stdout (emitted Q (Centred.eval_epoch Toy.pairs [0; 1; 2; 3] "Train") Toy.loaded)
    = [Eval_line "Train" loss 4 4 accuracy] /\
    stdout (emitted Q (Centred.eval_epoch Toy.pairs [0; 2; 1; 3] "Train") Toy.loaded)
    = [Eval_line "Train" loss' 2 4 accuracy'].
Proof.
  split; [vm_compute; apply Permutation_refl|].
  split; [vm_compute; apply perm_skip, perm_swap|].
  eexists _, _, _, _. split; vm_compute; reflexivity.
Qed.

End Lab.
